(** * bufs: a fixed-capacity cache of byte buffers

    A shallow embedding of [bufs.go] (package [bufs]) and the properties of
    its four methods [Alloc], [Calloc], [Free] and [Stats].

    Go values are modelled as follows.
    - [int] is [Z]; the only arithmetic that can leave the 64-bit range is the
      accumulation in [Stats], whose wrap-around is written out ([wrap]).
    - A [[]byte] is a slice header [byteslice]: the block of the byte heap it
      points to ([None] for the nil slice), its [len] and its [cap].  Every
      slice of this package starts at offset 0 of its block.
    - The byte heap [mem] is a list of blocks; a block's address is its index.
      [make([]byte, n)] appends a zeroed block, so addresses are never reused.
    - The sizes the runtime grants to [make] and [append] depend on the
      platform; they are the fields of [Runtime], over which everything
      below is stated.
    - A [Buffers] value is a [[][]byte] header over a backing array.  All
      headers the package builds are of the form [b[:k]] over one array, so
      the state keeps the array ([slots], whose length is [cap(b)]) and the
      [len] of the header stored in [*p] ([plen]).
    - A panic ends the call and leaves the state as it is at that point. *)

From Stdlib Require Import ZArith String Strings.Byte Lia.
From stdpp Require Import base tactics option list.

Local Open Scope Z_scope.

(** ** Go runtime values *)

Inductive runtime_error :=
| SliceBoundsOutOfRange (hi capacity : Z)   (* b[:hi] with hi > cap(b) *)
| IndexOutOfRange (i length : Z)            (* b[i] with i outside [0, len(b)) *)
| MakeLenOutOfRange                         (* makeslice: len out of range *)
| GrowLenOutOfRange                         (* growslice: len out of range *)
| NilDereference.

Inductive panic_value :=
| ErrorsNew (msg : string)                  (* panic(errors.New(msg)) *)
| RuntimeError (e : runtime_error).         (* a panic raised by the runtime *)

(** The limits of the runtime: [make([]T, n)] panics when [n] is negative or
    [n] elements take more than the runtime allocates at once, [append]
    panics when the slice cannot grow any further.  [max_bytes] and
    [max_slots] are the largest lengths [make] grants for a [[]byte] and for
    a [Buffers], [max_result] is the largest length [append] grants for a
    [[]byte].  Up to these limits memory is taken to be sufficient. *)
Class Runtime := {
  max_bytes : Z;
  max_slots : Z;
  max_result : Z
}.

Record byteslice := Slice { data : option nat; len : Z; cap : Z }.

Definition nil_slice : byteslice := Slice None 0 0.

Record state := State {
  slots : list byteslice;      (* backing array of the pool, cap(b) entries *)
  plen : Z;                    (* len( *p ) *)
  mem : list (list byte)       (* byte heap *)
}.

Inductive outcome (A : Type) :=
| Ok (a : A) (s : state)
| Panic (e : panic_value) (s : state).
Arguments Ok {A} a s.
Arguments Panic {A} e s.

Definition M (A : Type) : Type := state → outcome A.

#[export] Instance M_ret : MRet M := λ A a s, Ok a s.
#[export] Instance M_bind : MBind M := λ A B f m s,
  match m s with
  | Ok a s' => f a s'
  | Panic e s' => Panic e s'
  end.

Definition panic {A} (e : panic_value) : M A := λ s, Panic e s.

(** A call under [defer func() { e = recover() }()]: a panic ends the call,
    its value is handed over and execution goes on from the state the panic
    left. *)
Definition recover {A} (m : M A) : M (option panic_value) := λ s,
  match m s with
  | Ok _ s' => Ok None s'
  | Panic e s' => Ok (Some e) s'
  end.

(** 64-bit two's complement wrap-around of [int]. *)
Definition wrap (z : Z) : Z := (z + 2 ^ 63) `mod` 2 ^ 64 - 2 ^ 63.

(** ** Primitive statements *)

(** [b := *p]: the header is represented by its length. *)
Definition load_p : M Z := λ s, Ok (plen s) s.

(** [*p = b]. *)
Definition store_p (k : Z) : M unit := λ s, Ok tt (State (slots s) k (mem s)).

(** [cap(b)]. *)
Definition cap_p : M Z := λ s, Ok (Z.of_nat (length (slots s))) s.

(** [b[:hi]] for a header [b] over the backing array. *)
Definition reslice (hi : Z) : M Z := λ s,
  if (0 <=? hi) && (hi <=? Z.of_nat (length (slots s))) then Ok hi s
  else Panic (RuntimeError (SliceBoundsOutOfRange hi (Z.of_nat (length (slots s))))) s.

(** [b[i]] read, for a header [b] of length [k]. *)
Definition index (k i : Z) : M byteslice := λ s,
  if (0 <=? i) && (i <? k) then
    match slots s !! Z.to_nat i with
    | Some v => Ok v s
    | None => Panic (RuntimeError (IndexOutOfRange i k)) s
    end
  else Panic (RuntimeError (IndexOutOfRange i k)) s.

(** [b[i] = v], for a header [b] of length [k]. *)
Definition assign (k i : Z) (v : byteslice) : M unit := λ s,
  if (0 <=? i) && (i <? k) && (i <? Z.of_nat (length (slots s))) then
    Ok tt (State (<[Z.to_nat i := v]> (slots s)) (plen s) (mem s))
  else Panic (RuntimeError (IndexOutOfRange i k)) s.

(** [b[i], b[j] = b[j], b[i]]: both operands are read, then both stores
    are done from left to right. *)
Definition swap (k i j : Z) : M unit :=
  vj ← index k j; vi ← index k i; assign k i vj;; assign k j vi.

(** [make([]byte, n)]: a fresh zeroed block of [n] bytes, [len = cap = n],
    unless the runtime refuses the length. *)
Definition make {rt : Runtime} (n : Z) : M byteslice := λ s,
  if (n <? 0) || (max_bytes <? n) then Panic (RuntimeError MakeLenOutOfRange) s
  else Ok (Slice (Some (length (mem s))) n n)
          (State (slots s) (plen s) (mem s ++ [replicate (Z.to_nat n) x00])).

(** [r[i] = v] on a byte slice. *)
Definition poke (r : byteslice) (i : Z) (v : byte) : M unit := λ s,
  if (0 <=? i) && (i <? len r) then
    match data r with
    | Some a => Ok tt (State (slots s) (plen s) (alter (<[Z.to_nat i := v]>) a (mem s)))
    | None => Panic (RuntimeError NilDereference) s
    end
  else Panic (RuntimeError (IndexOutOfRange i (len r))) s.

(** The elements a [range] loop over a header of length [k] visits. *)
Definition elems (k : Z) : M (list byteslice) := λ s,
  Ok (take (Z.to_nat k) (slots s)) s.

(** ** The package *)

(** [New(n)], that is [make(Buffers, n)], assigned to the variable the
    receiver [p] points to. *)
Definition New {rt : Runtime} (n : Z) : M unit := λ s,
  if (n <? 0) || (max_slots <? n) then Panic (RuntimeError MakeLenOutOfRange) s
  else Ok tt (State (replicate (Z.to_nat n) nil_slice) n (mem s)).

(** The four locals of the scan loop of [Alloc]. *)
Record scan_vars := Scan { biggest : Z; biggestI : Z; best : Z; bestI : Z }.

(** [var biggest, best int; biggestI, bestI := -1, -1]. *)
Definition scan_init : scan_vars := Scan 0 (-1) 0 (-1).

(** One iteration of [for i, v := range b]. *)
Definition scan_step (n : Z) (st : scan_vars) (i : Z) (v : byteslice) : scan_vars :=
  let ln := len v in
  let st1 :=
    if ln >=? biggest st then Scan ln i (best st) (bestI st) else st in
  if (ln >=? n) && ((bestI st1 <? 0) || (best st1 >? ln))
  then Scan (biggest st1) (biggestI st1) ln i
  else st1.

Fixpoint scan_from (n : Z) (i : Z) (vs : list byteslice) (st : scan_vars) : scan_vars :=
  match vs with
  | [] => st
  | v :: vs' => scan_from n (i + 1) vs' (scan_step n st i v)
  end.

(** The whole loop [for i, v := range b]. *)
Definition scan (n : Z) (vs : list byteslice) : scan_vars :=
  scan_from n 0 vs scan_init.

Definition out_of_buffers : string := "Buffers.Alloc: out of buffers".

Definition Alloc {rt : Runtime} (n : Z) : M byteslice :=
  b ← load_p;
  if b =? 0 then panic (ErrorsNew out_of_buffers) else
  vs ← elems b;
  let st := scan n vs in
  let last := b - 1 in
  if best st >=? n then
    r ← index b (bestI st);
    swap b last (bestI st);;
    b' ← reslice last;
    store_p b';;
    mret r
  else
    r ← make n;
    assign b (biggestI st) r;;
    swap b last (biggestI st);;
    b' ← reslice last;
    store_p b';;
    mret r.

(** [for i := range r { r[i] = 0 }], the indices given as a list. *)
Fixpoint zero_loop (r : byteslice) (idx : list Z) : M unit :=
  match idx with
  | [] => mret tt
  | i :: idx' => poke r i x00;; zero_loop r idx'
  end.

Definition Calloc {rt : Runtime} (n : Z) : M byteslice :=
  r ← Alloc n;
  zero_loop r (seqZ 0 (len r));;
  mret r.

Definition Free : M unit :=
  b ← load_p;
  b' ← reslice (b + 1);
  store_p b'.

(** [for _, v := range b { bytes += cap(v) }] over the elements [vs]. *)
Definition stats_loop (vs : list byteslice) : Z :=
  fold_left (λ bytes v, wrap (bytes + cap v)) vs 0.

Definition Stats : M Z :=
  b ← cap_p;
  b' ← reslice b;
  vs ← elems b';
  mret (stats_loop vs).

(** ** Clients: sequences of calls *)

(** A call made by the code that owns the pool.  [OpPoke d i v] is the
    client's own [r[i] = v] on the buffer it got [d] borrows ago. *)
Inductive op :=
| OpAlloc (n : Z)
| OpCalloc (n : Z)
| OpFree
| OpPoke (d : nat) (i : Z) (v : byte).

(** Runs the calls in order; [held] lists the buffers handed out and not yet
    given back, the most recent first. *)
Fixpoint exec {rt : Runtime} (ops : list op) (held : list byteslice) :
    M (list byteslice) :=
  match ops with
  | [] => mret held
  | OpAlloc n :: ops' => r ← Alloc n; exec ops' (r :: held)
  | OpCalloc n :: ops' => r ← Calloc n; exec ops' (r :: held)
  | OpFree :: ops' => Free;; exec ops' (tail held)
  | OpPoke d i v :: ops' =>
      match held !! d with
      | Some r => poke r i v;; exec ops' held
      | None => exec ops' held
      end
  end.

(** The state before the pool exists. *)
Definition boot : state := State [] 0 [].

(** [s] is a state a client can reach from [New(c)] with [held] borrowed. *)
Definition reachable {rt : Runtime} (c : Z) (held : list byteslice) (s : state) :
    Prop :=
  ∃ ops, (New c;; exec ops []) boot = Ok held s.

(** Calls that pair up like parentheses. *)
Inductive balanced : list op → Prop :=
| balanced_nil : balanced []
| balanced_poke d i v t : balanced t → balanced (OpPoke d i v :: t)
| balanced_alloc n t u :
    balanced t → balanced u → balanced (OpAlloc n :: t ++ OpFree :: u)
| balanced_calloc n t u :
    balanced t → balanced u → balanced (OpCalloc n :: t ++ OpFree :: u).

(** ** Specification vocabulary *)

(** Some element of [vs] has capacity at least [n]. *)
Definition fits (n : Z) (vs : list byteslice) : Prop :=
  ∃ j w, vs !! j = Some w ∧ n ≤ cap w.

(** [i] is the first index of a smallest element with capacity at least [n]. *)
Definition best_fit (n : Z) (vs : list byteslice) (i : nat) : Prop :=
  ∃ v, vs !! i = Some v ∧ n ≤ cap v ∧
    (∀ j w, vs !! j = Some w → n ≤ cap w → cap v ≤ cap w) ∧
    (∀ j w, vs !! j = Some w → n ≤ cap w → (j < i)%nat → cap v < cap w).

(** [i] is the first, respectively the last, index of a largest element. *)
Definition first_largest (vs : list byteslice) (i : nat) : Prop :=
  ∃ v, vs !! i = Some v ∧
    (∀ j w, vs !! j = Some w → cap w ≤ cap v) ∧
    (∀ j w, vs !! j = Some w → (j < i)%nat → cap w < cap v).

Definition last_largest (vs : list byteslice) (i : nat) : Prop :=
  ∃ v, vs !! i = Some v ∧
    (∀ j w, vs !! j = Some w → cap w ≤ cap v) ∧
    (∀ j w, vs !! j = Some w → (i < j)%nat → cap w < cap v).

(** Two buffers share backing storage. *)
Definition alias (r1 r2 : byteslice) : Prop :=
  ∃ a, data r1 = Some a ∧ data r2 = Some a.

(** The free region and the region on loan. *)
Definition free_region (s : state) : list byteslice :=
  take (Z.to_nat (plen s)) (slots s).
Definition on_loan (s : state) : list byteslice :=
  drop (Z.to_nat (plen s)) (slots s).

(** The bytes a buffer gives access to through its backing storage. *)
Definition block_of (s : state) (r : byteslice) : list byte :=
  match data r with
  | Some a => default [] (mem s !! a)
  | None => []
  end.

(** Sum of the capacities of all elements. *)
Definition total_cap (vs : list byteslice) : Z :=
  foldr (λ v acc, cap v + acc) 0 vs.

(** No two entries of a list of buffers share storage. *)
Definition distinct (l : list byteslice) : Prop :=
  ∀ i j v w, l !! i = Some v → l !! j = Some w → alias v w → i = j.

(** ** Well-formed states *)

(** A slot is nil, or is exactly one whole block of the byte heap. *)
Definition slot_ok (h : list (list byte)) (v : byteslice) : Prop :=
  match data v with
  | None => len v = 0 ∧ cap v = 0
  | Some a => ∃ blk, h !! a = Some blk ∧ len v = Z.of_nat (length blk) ∧ cap v = len v
  end.

Record wf (s : state) : Prop := Wf {
  wf_plen : 0 ≤ plen s ≤ Z.of_nat (length (slots s));
  wf_slots : Forall (slot_ok (mem s)) (slots s);
  wf_distinct : distinct (slots s)
}.

(** ** The loop invariant of the scan *)

(** What the locals hold after the elements [pre] have been visited. *)
Definition scan_inv (n : Z) (pre : list byteslice) (st : scan_vars) : Prop :=
  0 ≤ biggest st ∧
  ((pre = [] ∧ biggestI st = -1 ∧ biggest st = 0) ∨
   (∃ i v, biggestI st = Z.of_nat i ∧ pre !! i = Some v ∧
           biggest st = cap v ∧ last_largest pre i)) ∧
  ((¬ fits n pre ∧ bestI st = -1 ∧ best st = 0) ∨
   (∃ i v, bestI st = Z.of_nat i ∧ pre !! i = Some v ∧
           best st = cap v ∧ best_fit n pre i)).

(** ** What [Alloc] does to a chosen slot *)

(** The slot at [i] is handed out as it is: swapped with the last free slot
    and cut off the free region. *)
Definition take_at (i : nat) (s : state) : outcome byteslice :=
  let last := Z.to_nat (plen s - 1) in
  match slots s !! i, slots s !! last with
  | Some v, Some w =>
      Ok v (State (<[i := w]> (<[last := v]> (slots s))) (plen s - 1) (mem s))
  | _, _ => Panic (RuntimeError (IndexOutOfRange (Z.of_nat i) (plen s))) s
  end.

(** The slot at [i] is replaced by a fresh zeroed buffer of [n] bytes, which
    is then swapped with the last free slot and cut off the free region. *)
Definition grow_at (n : Z) (i : nat) (s : state) : outcome byteslice :=
  let last := Z.to_nat (plen s - 1) in
  let r := Slice (Some (length (mem s))) n n in
  let arr := <[i := r]> (slots s) in
  match arr !! last with
  | Some w =>
      Ok r (State (<[i := w]> (<[last := r]> arr)) (plen s - 1)
                  (mem s ++ [replicate (Z.to_nat n) x00]))
  | None => Panic (RuntimeError (IndexOutOfRange (Z.of_nat i) (plen s))) s
  end.

(** A panic that comes from a check of the Go runtime, not from the package. *)
Definition generic_crash (e : panic_value) : Prop := ∃ r, e = RuntimeError r.

(** The bytes of a block after [r[i] = 0] for each [i] of [idx]. *)
Fixpoint zero_idx (idx : list Z) (blk : list byte) : list byte :=
  match idx with
  | [] => blk
  | i :: idx' => zero_idx idx' (<[Z.to_nat i := x00]> blk)
  end.

(** ** Sample states *)

(** The calls of [Test4] up to the first request that is smaller than the
    slot it gets. *)
Definition test4_calls : list op :=
  [OpAlloc 10; OpAlloc 20; OpAlloc 30; OpAlloc 40; OpFree; OpFree; OpFree;
   OpAlloc 20; OpFree; OpAlloc 30; OpFree].

(** The pool after [New(4)] and the calls of [test4_calls]: the buffer of
    10 bytes is on loan, the free slots have capacities 40, 20 and 30. *)
Definition test4_pool : state :=
  State [Slice (Some 3%nat) 40 40; Slice (Some 1%nat) 20 20;
         Slice (Some 2%nat) 30 30; Slice (Some 0%nat) 10 10] 3
        [replicate 10 x00; replicate 20 x00; replicate 30 x00; replicate 40 x00].

(** A client that fills a buffer of 4 bytes and gives it back. *)
Definition dirty_calls : list op :=
  [OpAlloc 4; OpPoke 0 0 x05; OpPoke 0 1 x06; OpPoke 0 3 x07; OpFree].

Definition dirty_pool : state :=
  State [Slice (Some 0%nat) 4 4] 1 [[x05; x06; x00; x07]].

(** Two free slots of capacity 10, as left by
    [New(2); Alloc(10); Alloc(10); Free(); Free()]. *)
Definition tie_pool : state :=
  State [Slice (Some 1%nat) 10 10; Slice (Some 0%nat) 10 10] 2
        [replicate 10 x00; replicate 10 x00].

(** Both slots of a pool of two on loan, after [New(2); Alloc(3); Alloc(5)]. *)
Definition two_on_loan : state :=
  State [Slice (Some 1%nat) 5 5; Slice (Some 0%nat) 3 3] 0
        [replicate 3 x00; replicate 5 x00].

(** A client that borrows 3 bytes, then nests a matched borrow in which it
    writes to the outer buffer. *)
Definition lifo_start : state := State [nil_slice; nil_slice] 2 [].
Definition lifo_buf : byteslice := Slice (Some 0%nat) 3 3.
Definition lifo_borrowed : state :=
  State [nil_slice; lifo_buf] 1 [[x00; x00; x00]].
Definition lifo_calls : list op := [OpAlloc 0; OpPoke 1 2 x07; OpFree].
Definition lifo_after : state :=
  State [nil_slice; lifo_buf] 1 [[x00; x00; x07]].

(** The pool of [test4_pool] after [Alloc(10)] has taken the slot of
    capacity 20. *)
Definition test4_taken : state :=
  State [Slice (Some 3%nat) 40 40; Slice (Some 2%nat) 30 30;
         Slice (Some 1%nat) 20 20; Slice (Some 0%nat) 10 10] 2
        [replicate 10 x00; replicate 20 x00; replicate 30 x00; replicate 40 x00].

(** ** Nesting depth of a sequence of calls *)

(** A call into the package, as opposed to a write of the client. *)
Definition is_call (o : op) : bool :=
  match o with
  | OpPoke _ _ _ => false
  | _ => true
  end.

(** Whether the calls never borrow with no slot among [free] left and never
    give back more than the [loaned] buffers they hold. *)
Fixpoint depth_ok (ops : list op) (free loaned : nat) : bool :=
  match ops with
  | [] => true
  | OpAlloc _ :: t | OpCalloc _ :: t =>
      match free with
      | O => false
      | S f => depth_ok t f (S loaned)
      end
  | OpFree :: t =>
      match loaned with
      | O => false
      | S l => depth_ok t (S free) l
      end
  | OpPoke _ _ _ :: t => depth_ok t free loaned
  end.

(** Sum of a list of sizes. *)
Definition sumZ (ns : list Z) : Z := foldr Z.add 0 ns.

(** ** The clients of the test file *)

(** A [Foo] or [FooBufs] object together with the memory it works in:
    [world] holds the byte heap and, for a [FooBufs], its [buffers] field;
    [result] is the content of its [result] field. *)
Record client := Client { world : state; result : list byte }.

Inductive completion (A : Type) :=
| Done (a : A) (f : client)
| Crashed (e : panic_value) (f : client).
Arguments Done {A} a f.
Arguments Crashed {A} e f.

Definition C (A : Type) : Type := client → completion A.

#[export] Instance C_ret : MRet C := λ A a f, Done a f.
#[export] Instance C_bind : MBind C := λ A B k m f,
  match m f with
  | Done a f' => k a f'
  | Crashed e f' => Crashed e f'
  end.

(** A statement on the pool or the heap, run inside a method of the client. *)
Definition lift {A} (m : M A) : C A := λ f,
  match m (world f) with
  | Ok a s => Done a (Client s (result f))
  | Panic e s => Crashed e (Client s (result f))
  end.

(** [defer d] followed by the rest of the function body: [d] runs when the
    body is left, also by a panic, which then goes on unless [d] panics
    itself. *)
Definition deferring {A} (d : C unit) (body : C A) : C A := λ f,
  match body f with
  | Done a f1 =>
      match d f1 with
      | Done _ f2 => Done a f2
      | Crashed e f2 => Crashed e f2
      end
  | Crashed e f1 =>
      match d f1 with
      | Done _ f2 => Crashed e f2
      | Crashed e' f2 => Crashed e' f2
      end
  end.

(** [f.result = append(f.result, b)]. *)
Definition append_result {rt : Runtime} (b : byte) : C unit := λ f,
  if max_result <? Z.of_nat (length (result f)) + 1
  then Crashed (RuntimeError GrowLenOutOfRange) f
  else Done tt (Client (world f) (result f ++ [b])).

(** The conversions [int(v)] of a byte and [byte(sum)] of an [int]. *)
Definition int_of_byte (v : byte) : Z := Z.of_N (Byte.to_N v).
Definition byte_of_int (z : Z) : byte :=
  default x00 (Byte.of_N (Z.to_N (z `mod` 256))).

(** The elements a [range] loop over the byte slice [buf] visits. *)
Definition range_bytes (buf : byteslice) : M (list byte) := λ s,
  Ok (take (Z.to_nat (len buf)) (block_of s buf)) s.

(** [sum := 0; for _, v := range buf { sum += int(v) }]. *)
Definition sum_loop (vs : list byte) : Z :=
  fold_left (λ sum v, wrap (sum + int_of_byte v)) vs 0.

(** The [result] field of a new object: nil. *)
Definition init_result : C unit := λ f, Done tt (Client (world f) []).

(** [NewFoo()] and the methods of [Foo], which allocate their buffers. *)
Definition NewFoo : C unit := init_result.

Definition Foo_Qux {rt : Runtime} (n : Z) : C unit :=
  buf ← lift (make n);
  vs ← lift (range_bytes buf);
  append_result (byte_of_int (sum_loop vs)).

Definition Foo_Bar {rt : Runtime} (n : Z) : C unit :=
  buf ← lift (make n);
  vs ← lift (range_bytes buf);
  append_result (byte_of_int (sum_loop vs));;
  Foo_Qux n.

(** [NewFooBufs()] and the methods of [FooBufs], which borrow them. *)
Definition maxFooDepth : Z := 2.

Definition NewFooBufs {rt : Runtime} : C unit :=
  lift (New maxFooDepth);; init_result.

Definition FooBufs_Qux {rt : Runtime} (n : Z) : C unit :=
  buf ← lift (Alloc n);
  deferring (lift Free)
    (vs ← lift (range_bytes buf);
     append_result (byte_of_int (sum_loop vs))).

Definition FooBufs_Bar {rt : Runtime} (n : Z) : C unit :=
  buf ← lift (Alloc n);
  deferring (lift Free)
    (vs ← lift (range_bytes buf);
     append_result (byte_of_int (sum_loop vs));;
     FooBufs_Qux n).

(** [for i := 0; i < k; i++ { c }]. *)
Fixpoint rounds (k : nat) (c : C unit) : C unit :=
  match k with
  | O => mret tt
  | S k' => c;; rounds k' c
  end.

(** The pool of [TestFooBufs] between two calls of [Bar(n)]: two buffers of
    [n] zero bytes, both free, in either order. *)
Definition zeros (n : Z) : list byte := replicate (Z.to_nat n) x00.
Definition buf0 (n : Z) : byteslice := Slice (Some 0%nat) n n.
Definition buf1 (n : Z) : byteslice := Slice (Some 1%nat) n n.
Definition steady (n : Z) (sl : list byteslice) : Prop :=
  sl = [buf0 n; buf1 n] ∨ sl = [buf1 n; buf0 n].

(** A call that asks for at most [m] bytes, or for none. *)
Definition asks_at_most (m : Z) (o : op) : Prop :=
  match o with
  | OpAlloc n | OpCalloc n => n ≤ m
  | _ => True
  end.

(** The limits of [make] on linux/amd64, where the runtime allocates at most
    [2^48] bytes at once and a slice header takes 24 bytes, with a length
    [append] is sure to grant there. *)
Definition linux_amd64 : Runtime :=
  {| max_bytes := 281474976710656;
     max_slots := 11728124029610;
     max_result := 140737488355328 |}.


(** * Properties

    Everything in this part holds for every runtime. *)

Section general.
Context {rt : Runtime}.

(** ** The monad *)

Lemma bind_Ok {A B} (m : M A) (f : A → M B) s a s' :
  m s = Ok a s' → (m ≫= f) s = f a s'.
Proof. intros H. unfold mbind, M_bind. by rewrite H. Qed.

Lemma bind_Panic {A B} (m : M A) (f : A → M B) s e s' :
  m s = Panic e s' → (m ≫= f) s = Panic e s'.
Proof. intros H. unfold mbind, M_bind. by rewrite H. Qed.

Lemma bind_inv_Ok {A B} (m : M A) (f : A → M B) s b s2 :
  (m ≫= f) s = Ok b s2 → ∃ a s1, m s = Ok a s1 ∧ f a s1 = Ok b s2.
Proof.
  unfold mbind, M_bind. destruct (m s) as [a s1|e s1]; [eauto | discriminate].
Qed.

(** ** The scan loop *)

Section scan_loop.
(** The requested size. *)
Variable n : Z.

Lemma scan_inv_init : scan_inv n [] scan_init.
Proof.
  repeat split; simpl; [lia | by left |].
  left. repeat split; try done. by intros (j & w & ? & _).
Qed.

Lemma last_largest_snoc_new pre v :
  (∀ j w, pre !! j = Some w → cap w ≤ cap v) →
  last_largest (pre ++ [v]) (length pre).
Proof.
  intros Hle. exists v. split; [by rewrite lookup_app_r, Nat.sub_diag by lia|].
  split; intros j w [[? Hj]|[-> <-]]%lookup_snoc_Some; eauto; lia.
Qed.

Lemma last_largest_snoc_old pre v i u :
  pre !! i = Some u → cap v < cap u →
  last_largest pre i → last_largest (pre ++ [v]) i.
Proof.
  intros Hi Hlt (u' & Hi' & Hmax & Hlast). simplify_eq.
  exists u. split; [by apply lookup_app_l_Some|].
  split; intros j w [[? Hj]|[-> <-]]%lookup_snoc_Some; eauto; lia.
Qed.

Lemma best_fit_snoc_new pre v :
  n ≤ cap v →
  (∀ j w, pre !! j = Some w → n ≤ cap w → cap v < cap w) →
  best_fit n (pre ++ [v]) (length pre).
Proof.
  intros Hn Hlt. exists v. split; [by rewrite lookup_app_r, Nat.sub_diag by lia|].
  split; [done|].
  split; intros j w [[? Hj]|[-> <-]]%lookup_snoc_Some; try lia.
  - intros. apply Z.lt_le_incl; eauto.
  - eauto.
Qed.

Lemma best_fit_snoc_old pre v i u :
  pre !! i = Some u → (n ≤ cap v → cap u ≤ cap v) →
  best_fit n pre i → best_fit n (pre ++ [v]) i.
Proof.
  intros Hi Hv (u' & Hi' & Hn & Hmin & Hfirst). simplify_eq.
  exists u. split; [by apply lookup_app_l_Some|]. split; [done|].
  split; intros j w [[? Hj]|[-> <-]]%lookup_snoc_Some; eauto.
  intros _ ?. apply lookup_lt_Some in Hi. lia.
Qed.

Lemma scan_step_inv pre st v :
  len v = cap v → 0 ≤ cap v →
  scan_inv n pre st →
  scan_inv n (pre ++ [v]) (scan_step n st (Z.of_nat (length pre)) v).
Proof.
  intros Hlen Hcap (Hpos & Hbig & Hbest). unfold scan_step. rewrite Hlen.
  assert (Hbig' : ∀ st1,
    st1 = (if cap v >=? biggest st
           then Scan (cap v) (Z.of_nat (length pre)) (best st) (bestI st) else st) →
    0 ≤ biggest st1 ∧ best st1 = best st ∧ bestI st1 = bestI st ∧
    ∃ i u, biggestI st1 = Z.of_nat i ∧ (pre ++ [v]) !! i = Some u ∧
           biggest st1 = cap u ∧ last_largest (pre ++ [v]) i).
  { intros st1 ->. rewrite Z.geb_leb.
    destruct (Z.leb_spec (biggest st) (cap v)) as [Hge|Hlt]; simpl.
    - repeat split; try done. exists (length pre), v.
      repeat split; [by rewrite lookup_app_r, Nat.sub_diag by lia|].
      apply last_largest_snoc_new. intros j w Hj.
      destruct Hbig as [[-> _]|(i & u & _ & Hi & Hu & (u' & ? & Hmax & _))];
        [done|]. simplify_eq. specialize (Hmax _ _ Hj). lia.
    - repeat split; try done.
      destruct Hbig as [(-> & _ & ?)|(i & u & HI & Hi & Hu & Hll)]; [lia|].
      exists i, u. repeat split; try done; [by apply lookup_app_l_Some|].
      eapply last_largest_snoc_old; eauto. lia. }
  set (st1 := if cap v >=? biggest st then _ else st) in *.
  destruct (Hbig' st1 eq_refl) as (Hpos1 & Hb1 & HbI1 & Hbig1). clear Hbig'.
  destruct ((cap v >=? n) && ((bestI st1 <? 0) || (best st1 >? cap v))) eqn:Hc;
    rewrite Hb1, HbI1, Z.geb_leb, Z.gtb_ltb in Hc.
  - (* the element becomes the best fit *)
    apply andb_true_iff in Hc as [Hn%Z.leb_le Hc].
    split; [done|]. split; [by right|]. simpl.
    right. exists (length pre), v.
    repeat split; [by rewrite lookup_app_r, Nat.sub_diag by lia|].
    apply best_fit_snoc_new; [done|]. intros j w Hj Hw.
    destruct Hbest as [(Hno & _)|(i & u & HI & Hi & Hu & (u' & ? & _ & Hmin & _))].
    + destruct Hno. by exists j, w.
    + simplify_eq. specialize (Hmin _ _ Hj Hw).
      apply orb_true_iff in Hc as [Hc%Z.ltb_lt|Hc%Z.ltb_lt]; lia.
  - (* the best fit stays *)
    split; [done|]. split; [by right|]. rewrite Hb1, HbI1.
    assert (n ≤ cap v → 0 ≤ bestI st ∧ best st ≤ cap v) as Hkeep.
    { intros Hn. apply andb_false_iff in Hc as [Hc%Z.leb_gt|Hc]; [lia|].
      apply orb_false_iff in Hc as [?%Z.ltb_ge ?%Z.ltb_ge]. lia. }
    destruct Hbest as [(Hno & ? & ?)|(i & u & HI & Hi & Hu & Hbf)].
    + left. repeat split; try done.
      intros (j & w & [[? Hj]|[-> <-]]%lookup_snoc_Some & Hw); [|lia].
      destruct Hno. by exists j, w.
    + right. exists i, u. repeat split; try done; [by apply lookup_app_l_Some|].
      eapply best_fit_snoc_old; eauto. lia.
Qed.

Lemma scan_from_inv vs : ∀ pre st,
  Forall (λ v, len v = cap v ∧ 0 ≤ cap v) vs →
  scan_inv n pre st →
  scan_inv n (pre ++ vs) (scan_from n (Z.of_nat (length pre)) vs st).
Proof.
  induction vs as [|v vs IH]; intros pre st Hvs Hinv; simpl.
  - by rewrite app_nil_r.
  - apply Forall_cons in Hvs as [[Hlen Hcap] Hvs].
    rewrite cons_middle, app_assoc.
    replace (Z.of_nat (length pre) + 1) with (Z.of_nat (length (pre ++ [v])))
      by (rewrite length_app; simpl; lia).
    apply IH; [done|]. by apply scan_step_inv.
Qed.

Lemma scan_spec vs :
  Forall (λ v, len v = cap v ∧ 0 ≤ cap v) vs → scan_inv n vs (scan n vs).
Proof. intros Hvs. apply (scan_from_inv vs [] scan_init Hvs), scan_inv_init. Qed.

End scan_loop.

(** ** Primitive statements that succeed *)

Lemma slot_ok_len h v : slot_ok h v → len v = cap v ∧ 0 ≤ cap v.
Proof.
  unfold slot_ok. destruct (data v); [intros (blk & _ & ? & ?)|intros [? ?]]; lia.
Qed.

Lemma wf_sizes s : wf s → Forall (λ v, len v = cap v ∧ 0 ≤ cap v) (slots s).
Proof. intros [_ H _]. eapply Forall_impl; [done|]. intros v. apply slot_ok_len. Qed.

Lemma free_region_length s : wf s → length (free_region s) = Z.to_nat (plen s).
Proof. intros [? _ _]. unfold free_region. rewrite length_take. lia. Qed.

Lemma free_region_lookup s i v :
  free_region s !! i = Some v ↔ slots s !! i = Some v ∧ Z.of_nat i < plen s.
Proof. unfold free_region. rewrite lookup_take_Some. intuition lia. Qed.

Lemma index_ok k i v s :
  slots s !! i = Some v → Z.of_nat i < k → index k (Z.of_nat i) s = Ok v s.
Proof.
  intros Hi Hk. unfold index. rewrite Nat2Z.id, Hi.
  by rewrite (proj2 (Z.leb_le _ _)), (proj2 (Z.ltb_lt _ _)) by lia.
Qed.

Lemma assign_ok k i v s :
  (i < length (slots s))%nat → Z.of_nat i < k →
  assign k (Z.of_nat i) v s = Ok tt (State (<[i := v]> (slots s)) (plen s) (mem s)).
Proof.
  intros Hi Hk. unfold assign. rewrite Nat2Z.id.
  by rewrite (proj2 (Z.leb_le _ _)), !(proj2 (Z.ltb_lt _ _)) by lia.
Qed.

Lemma swap_ok k i j vi vj s :
  slots s !! i = Some vi → slots s !! j = Some vj →
  Z.of_nat i < k → Z.of_nat j < k →
  swap k (Z.of_nat i) (Z.of_nat j) s
  = Ok tt (State (<[j := vi]> (<[i := vj]> (slots s))) (plen s) (mem s)).
Proof.
  intros Hi Hj Hik Hjk. unfold swap.
  rewrite (bind_Ok _ _ _ _ _ (index_ok k j vj s Hj Hjk)).
  rewrite (bind_Ok _ _ _ _ _ (index_ok k i vi s Hi Hik)).
  apply lookup_lt_Some in Hi, Hj.
  rewrite (bind_Ok _ _ _ _ _ (assign_ok k i vj s Hi Hik)).
  rewrite assign_ok; simpl; [done| by rewrite length_insert | done].
Qed.

Lemma reslice_ok hi s :
  0 ≤ hi ≤ Z.of_nat (length (slots s)) → reslice hi s = Ok hi s.
Proof.
  intros H. unfold reslice. by rewrite !(proj2 (Z.leb_le _ _)) by lia.
Qed.

(** ** What one [Alloc] does *)

Lemma Alloc_empty n s :
  plen s = 0 → Alloc n s = Panic (ErrorsNew out_of_buffers) s.
Proof. intros H. unfold Alloc, mbind, M_bind, load_p. by rewrite H. Qed.

Lemma Alloc_total n s :
  wf s → 0 < plen s →
  let last := Z.to_nat (plen s - 1) in
  (∃ i v w, best_fit n (free_region s) i ∧
     slots s !! i = Some v ∧ slots s !! last = Some w ∧
     Alloc n s = Ok v (State (<[i := w]> (<[last := v]> (slots s)))
                             (plen s - 1) (mem s)))
  ∨ (¬ fits n (free_region s) ∧ 0 < n ∧ n ≤ max_bytes ∧
     ∃ i w, last_largest (free_region s) i ∧
       let r := Slice (Some (length (mem s))) n n in
       <[i := r]> (slots s) !! last = Some w ∧
       Alloc n s = Ok r (State (<[i := w]> (<[last := r]> (<[i := r]> (slots s))))
                               (plen s - 1)
                               (mem s ++ [replicate (Z.to_nat n) x00])))
  ∨ (¬ fits n (free_region s) ∧ max_bytes < n ∧
     Alloc n s = Panic (RuntimeError MakeLenOutOfRange) s).
Proof.
  intros Hwf Hpos last.
  pose proof (wf_plen _ Hwf) as Hplen.
  assert (Hsz : Forall (λ v, len v = cap v ∧ 0 ≤ cap v) (free_region s)).
  { apply Forall_take, wf_sizes, Hwf. }
  destruct (scan_spec n _ Hsz) as (_ & Hbig & Hbest).
  assert (is_Some (slots s !! last)) as [w Hw].
  { apply lookup_lt_is_Some. lia. }
  assert (Hlast : plen s - 1 = Z.of_nat last) by lia.
  unfold Alloc. rewrite (bind_Ok _ _ s (plen s) s) by done.
  destruct (Z.eqb_spec (plen s) 0) as [?|_]; [lia|].
  rewrite (bind_Ok _ _ s (free_region s) s) by done. simpl.
  destruct Hbest as [(Hno & HbI & Hb)|(i & v & HbI & Hi & Hb & Hbf)].
  - (* no slot fits *)
    right.
    assert (0 < n) as Hn.
    { destruct (free_region s) as [|u us] eqn:Hfr.
      - apply (f_equal length) in Hfr. rewrite free_region_length in Hfr by done.
        simpl in Hfr. lia.
      - apply Forall_cons in Hsz as [[_ ?] _].
        destruct (Z.le_gt_cases n (cap u)); [|lia].
        destruct Hno. by exists 0%nat, u. }
    rewrite Hb, Z.geb_leb, (proj2 (Z.leb_gt _ _)) by lia.
    destruct (Z.le_gt_cases n max_bytes) as [Hle|Hgt].
    + (* the largest one is replaced *)
      left. split; [done|]. split; [done|]. split; [done|].
      destruct Hbig as [(Hnil & _)|(i & v & HI & Hi & _ & Hll)].
      { apply (f_equal length) in Hnil. rewrite free_region_length in Hnil by done.
        simpl in Hnil. lia. }
      apply free_region_lookup in Hi as [Hi Hik].
      set (r := Slice (Some (length (mem s))) n n).
      set (s1 := State (slots s) (plen s) (mem s ++ [replicate (Z.to_nat n) x00])).
      assert (is_Some (<[i := r]> (slots s) !! last)) as [w' Hw'].
      { apply lookup_lt_is_Some. rewrite length_insert. lia. }
      exists i, w'. split; [done|]. split; [done|].
      assert (make n s = Ok r s1) as Hmk.
      { unfold make.
        by rewrite (proj2 (Z.ltb_ge n 0)), (proj2 (Z.ltb_ge max_bytes n)) by lia. }
      rewrite (bind_Ok _ _ _ _ _ Hmk), HI, Hlast.
      apply lookup_lt_Some in Hi as Hilt.
      rewrite (bind_Ok _ _ _ _ _ (assign_ok (plen s) i r s1 Hilt Hik)).
      erewrite bind_Ok; last first.
      { apply swap_ok; simpl; [done| |lia|done].
        by rewrite list_lookup_insert_eq. }
      erewrite bind_Ok; last first.
      { apply reslice_ok. simpl. rewrite !length_insert. lia. }
      by rewrite <- Hlast.
    + (* the runtime refuses the length *)
      right. split; [done|]. split; [done|].
      apply bind_Panic. unfold make.
      by rewrite (proj2 (Z.ltb_ge n 0)), (proj2 (Z.ltb_lt max_bytes n)) by lia.
  - (* best fit *)
    left. apply free_region_lookup in Hi as [Hi Hik].
    exists i, v, w. split; [done|]. split; [done|]. split; [done|].
    destruct Hbf as (v' & Hv' & Hn & _).
    apply free_region_lookup in Hv' as [Hv' _]. simplify_eq.
    rewrite Hb, Z.geb_leb, (proj2 (Z.leb_le _ _)) by lia.
    rewrite HbI, Hlast.
    rewrite (bind_Ok _ _ _ _ _ (index_ok (plen s) i v s Hi Hik)).
    erewrite bind_Ok; last first.
    { apply swap_ok; [done|done|lia|done]. }
    erewrite bind_Ok; last first.
    { apply reslice_ok. simpl. rewrite !length_insert. lia. }
    by rewrite <- Hlast.
Qed.

Lemma Alloc_run n s :
  wf s → 0 < plen s → n ≤ max_bytes ∨ fits n (free_region s) →
  let last := Z.to_nat (plen s - 1) in
  (∃ i v w, best_fit n (free_region s) i ∧
     slots s !! i = Some v ∧ slots s !! last = Some w ∧
     Alloc n s = Ok v (State (<[i := w]> (<[last := v]> (slots s)))
                             (plen s - 1) (mem s)))
  ∨ (¬ fits n (free_region s) ∧ 0 < n ∧
     ∃ i w, last_largest (free_region s) i ∧
       let r := Slice (Some (length (mem s))) n n in
       <[i := r]> (slots s) !! last = Some w ∧
       Alloc n s = Ok r (State (<[i := w]> (<[last := r]> (<[i := r]> (slots s))))
                               (plen s - 1)
                               (mem s ++ [replicate (Z.to_nat n) x00]))).
Proof.
  intros Hwf Hpos Hlim last.
  destruct (Alloc_total n s Hwf Hpos) as
    [Hfit|[(Hno & Hn & _ & Hgrow)|(Hno & Hgt & _)]].
  - by left.
  - right. by split.
  - destruct Hlim; [lia|done].
Qed.

Lemma Alloc_over_limit n s :
  wf s → 0 < plen s → ¬ fits n (free_region s) → max_bytes < n →
  Alloc n s = Panic (RuntimeError MakeLenOutOfRange) s.
Proof.
  intros Hwf Hpos Hno Hgt.
  destruct (Alloc_total n s Hwf Hpos) as
    [(i & v & w & (u & Hu & Hn & _) & _)|[(_ & _ & Hle & _)|(_ & _ & Hp)]].
  - destruct Hno. by exists i, u.
  - lia.
  - done.
Qed.

Lemma Alloc_Ok_inv n s r s' :
  wf s → Alloc n s = Ok r s' →
  0 < plen s ∧ (n ≤ max_bytes ∨ fits n (free_region s)).
Proof.
  intros Hwf Ha. pose proof (wf_plen _ Hwf) as Hplen.
  destruct (decide (plen s = 0)) as [H0|Hne].
  { by rewrite Alloc_empty in Ha. }
  split; [lia|].
  destruct (Alloc_total n s Hwf ltac:(lia)) as
    [(i & v & w & (u & Hu & Hn & _) & _)|[(_ & _ & Hle & _)|(_ & _ & Hp)]].
  - right. by exists i, u.
  - by left.
  - congruence.
Qed.

(** ** Well-formedness is kept *)

Lemma alias_nil_l v w : data v = None → ¬ alias v w.
Proof. intros Hv (a & ? & _). congruence. Qed.

Lemma distinct_swap l i j vi vj :
  distinct l → l !! i = Some vi → l !! j = Some vj →
  distinct (<[j := vi]> (<[i := vj]> l)).
Proof.
  intros Hd Hi Hj.
  assert (∀ k u, <[j := vi]> (<[i := vj]> l) !! k = Some u →
            ∃ k', l !! k' = Some u ∧
                  (k = j ∧ k' = i ∨ k = i ∧ k' = j ∨ k ≠ i ∧ k ≠ j ∧ k' = k)) as Hk.
  { intros k u Hu. destruct (decide (k = j)) as [->|Hkj].
    - rewrite list_lookup_insert_eq in Hu
        by (rewrite length_insert; by eapply lookup_lt_Some).
      simplify_eq. exists i. eauto.
    - rewrite list_lookup_insert_ne in Hu by done.
      destruct (decide (k = i)) as [->|Hki].
      + rewrite list_lookup_insert_eq in Hu by (by eapply lookup_lt_Some).
        simplify_eq. exists j. eauto 10.
      + rewrite list_lookup_insert_ne in Hu by done. exists k. eauto 10. }
  intros a b v w Ha Hb Hal.
  destruct (Hk _ _ Ha) as (a' & Ha' & Hca), (Hk _ _ Hb) as (b' & Hb' & Hcb).
  pose proof (Hd _ _ _ _ Ha' Hb' Hal). lia.
Qed.

Lemma distinct_insert_fresh l i r :
  distinct l → (∀ k u, l !! k = Some u → ¬ alias u r) → distinct (<[i := r]> l).
Proof.
  intros Hd Hfresh a b v w Ha Hb Hal.
  apply list_lookup_insert_Some in Ha as [(-> & -> & ?)|[? Ha]];
    apply list_lookup_insert_Some in Hb as [(-> & -> & ?)|[? Hb]]; try done.
  - destruct (Hfresh _ _ Hb). destruct Hal as (x & ? & ?). by exists x.
  - by destruct (Hfresh _ _ Ha).
  - eauto.
Qed.

Lemma distinct_drop l k : distinct l → distinct (drop k l).
Proof.
  intros Hd i j v w Hi Hj Hal. rewrite lookup_drop in Hi, Hj.
  pose proof (Hd _ _ _ _ Hi Hj Hal). lia.
Qed.

Lemma slot_ok_app h blk v : slot_ok h v → slot_ok (h ++ [blk]) v.
Proof.
  unfold slot_ok. destruct (data v); [|done].
  intros (b & Hb & ?). exists b. split; [by apply lookup_app_l_Some|done].
Qed.

Lemma slot_ok_fresh h n :
  0 ≤ n →
  slot_ok (h ++ [replicate (Z.to_nat n) x00]) (Slice (Some (length h)) n n).
Proof.
  intros Hn. exists (replicate (Z.to_nat n) x00). simpl.
  rewrite lookup_app_r, Nat.sub_diag, length_replicate by lia.
  repeat split; lia.
Qed.

Lemma slot_ok_not_fresh h v n : slot_ok h v → ¬ alias v (Slice (Some (length h)) n n).
Proof.
  unfold slot_ok. intros Hv (a & Ha & Hb). simpl in Hb. simplify_eq.
  rewrite Ha in Hv. destruct Hv as (blk & Hblk%lookup_lt_Some & _). lia.
Qed.

Lemma slot_ok_alter h a f v :
  (∀ blk, length (f blk) = length blk) → slot_ok h v → slot_ok (alter f a h) v.
Proof.
  intros Hf. unfold slot_ok. destruct (data v) as [a'|]; [|done].
  intros (blk & Hblk & Hlen & Hcap).
  destruct (decide (a = a')) as [->|Hne].
  - exists (f blk). rewrite list_lookup_alter_eq, Hblk, Hf. done.
  - exists blk. by rewrite list_lookup_alter_ne.
Qed.

Lemma New_ok c :
  0 ≤ c ≤ max_slots →
  ∀ s, New c s = Ok tt (State (replicate (Z.to_nat c) nil_slice) c (mem s)).
Proof.
  intros Hc s. unfold New.
  by rewrite (proj2 (Z.ltb_ge c 0)), (proj2 (Z.ltb_ge max_slots c)) by lia.
Qed.

Lemma New_over_limit c s :
  c < 0 ∨ max_slots < c → New c s = Panic (RuntimeError MakeLenOutOfRange) s.
Proof.
  intros Hc. unfold New.
  destruct (Z.ltb_spec c 0), (Z.ltb_spec max_slots c); simpl; first [done | lia].
Qed.

Lemma New_Ok_inv c s s' : New c s = Ok tt s' → 0 ≤ c ≤ max_slots.
Proof.
  unfold New. destruct (Z.ltb_spec c 0), (Z.ltb_spec max_slots c); simpl;
    first [done | intros _; lia].
Qed.

Lemma New_wf c s s' : New c s = Ok tt s' → wf s'.
Proof.
  unfold New. destruct (Z.ltb_spec c 0), (Z.ltb_spec max_slots c); simpl; try done.
  intros [= <-].
  split; simpl.
  - rewrite length_replicate. lia.
  - apply Forall_replicate. by split.
  - intros i j v w [-> _]%lookup_replicate _. by intros ?%alias_nil_l.
Qed.

Lemma Alloc_wf n s r s' : wf s → Alloc n s = Ok r s' → wf s'.
Proof.
  intros Hwf Hrun. pose proof (wf_plen _ Hwf) as Hplen.
  destruct (Alloc_Ok_inv _ _ _ _ Hwf Hrun) as [Hpos Hlim].
  destruct (Alloc_run n s Hwf Hpos Hlim) as
    [(i & v & w & _ & Hi & Hw & Heq)|(_ & Hn & i & w & Hll & Hw & Heq)];
    rewrite Heq in Hrun; injection Hrun as <- <-.
  - split; simpl.
    + rewrite !length_insert. lia.
    + apply Forall_insert; [apply Forall_insert; [apply Hwf|] |];
        eapply (Forall_lookup_1 _ _ _ _ (wf_slots _ Hwf)); eauto.
    + apply distinct_swap; [apply Hwf|done..].
  - assert (Forall (slot_ok (mem s ++ [replicate (Z.to_nat n) x00]))
              (<[i := Slice (Some (length (mem s))) n n]> (slots s))) as Hall.
    { apply Forall_insert; [|apply slot_ok_fresh; lia].
      eapply Forall_impl; [apply Hwf|]. intros u. apply slot_ok_app. }
    split; simpl.
    + rewrite !length_insert. lia.
    + apply Forall_insert; [apply Forall_insert; [done|] |].
      * apply slot_ok_fresh; lia.
      * eapply (Forall_lookup_1 _ _ _ _ Hall); eauto.
    + destruct Hll as (u & [Hi%lookup_lt_Some _]%free_region_lookup & _).
      apply distinct_swap; [|done|by apply list_lookup_insert_eq].
      apply distinct_insert_fresh; [apply Hwf|].
      intros k u' Hk. apply slot_ok_not_fresh.
      eapply (Forall_lookup_1 _ _ _ _ (wf_slots _ Hwf)); eauto.
Qed.

Lemma Free_inv s s' :
  Free s = Ok tt s' →
  plen s < Z.of_nat (length (slots s)) ∧
  s' = State (slots s) (plen s + 1) (mem s).
Proof.
  unfold Free, mbind, M_bind, load_p, reslice, store_p.
  destruct (Z.leb_spec 0 (plen s + 1)) as [H0|H0],
    (Z.leb_spec (plen s + 1) (Z.of_nat (length (slots s)))) as [H1|H1];
    simpl; try done.
  intros [= <-]. split; [lia|done].
Qed.

Lemma Free_ok s :
  0 ≤ plen s < Z.of_nat (length (slots s)) →
  Free s = Ok tt (State (slots s) (plen s + 1) (mem s)).
Proof.
  intros H. unfold Free, mbind, M_bind, load_p, reslice, store_p.
  by rewrite !(proj2 (Z.leb_le _ _)) by lia.
Qed.

Lemma Free_full s :
  plen s = Z.of_nat (length (slots s)) →
  Free s = Panic (RuntimeError
                    (SliceBoundsOutOfRange (plen s + 1) (Z.of_nat (length (slots s))))) s.
Proof.
  intros H. unfold Free, mbind, M_bind, load_p, reslice, store_p.
  rewrite (proj2 (Z.leb_le 0 _)), (proj2 (Z.leb_gt _ _)) by lia. done.
Qed.

Lemma Free_wf s s' : wf s → Free s = Ok tt s' → wf s'.
Proof.
  intros [Hp Hs Hd] [Hlt ->]%Free_inv. split; simpl; [lia|done..].
Qed.

Lemma poke_inv r i v s s' :
  poke r i v s = Ok tt s' →
  ∃ a, data r = Some a ∧ 0 ≤ i < len r ∧
       s' = State (slots s) (plen s) (alter (<[Z.to_nat i := v]>) a (mem s)).
Proof.
  unfold poke. destruct (Z.leb_spec 0 i), (Z.ltb_spec i (len r)); simpl; try done.
  destruct (data r) as [a|]; [|done]. intros [= <-]. exists a. repeat split; done || lia.
Qed.

Lemma poke_wf r i v s s' : wf s → poke r i v s = Ok tt s' → wf s'.
Proof.
  intros [Hp Hs Hd] (a & _ & _ & ->)%poke_inv. split; simpl; [done| |done].
  eapply Forall_impl; [done|]. intros u. apply slot_ok_alter.
  intros blk. apply length_insert.
Qed.

Create HintDb pool_wf.
#[local] Hint Resolve New_wf Alloc_wf Free_wf poke_wf : pool_wf.

Lemma zero_loop_frame r idx : ∀ s s',
  zero_loop r idx s = Ok tt s' → slots s' = slots s ∧ plen s' = plen s.
Proof.
  induction idx as [|i idx IH]; intros s s'; simpl.
  - by intros [= <-].
  - intros ([] & s1 & Hp & Hrest)%bind_inv_Ok.
    destruct (IH _ _ Hrest) as [-> ->].
    apply poke_inv in Hp as (a & _ & _ & ->). done.
Qed.

Lemma zero_loop_wf r idx : ∀ s s', wf s → zero_loop r idx s = Ok tt s' → wf s'.
Proof.
  induction idx as [|i idx IH]; intros s s' Hwf; simpl.
  - by intros [= <-].
  - intros ([] & s1 & Hp & Hrest)%bind_inv_Ok. eauto with pool_wf.
Qed.

Lemma Calloc_inv n s r s' :
  Calloc n s = Ok r s' →
  ∃ s1, Alloc n s = Ok r s1 ∧ zero_loop r (seqZ 0 (len r)) s1 = Ok tt s'.
Proof.
  unfold Calloc. intros (r' & s1 & Ha & ([] & s2 & Hz & Hret)%bind_inv_Ok)%bind_inv_Ok.
  injection Hret as -> ->. eauto.
Qed.

Lemma Calloc_wf n s r s' : wf s → Calloc n s = Ok r s' → wf s'.
Proof.
  intros Hwf (s1 & Ha & Hz)%Calloc_inv. eauto using zero_loop_wf with pool_wf.
Qed.

#[local] Hint Resolve Calloc_wf zero_loop_wf : pool_wf.

(** ** The region on loan is a stack *)

Lemma drop_insert_same {A} (l : list A) k x :
  (k < length l)%nat → drop k (<[k := x]> l) = x :: drop (S k) l.
Proof.
  intros Hk. rewrite drop_insert_ge, Nat.sub_diag by lia.
  destruct (lookup_lt_is_Some_2 l k Hk) as [y Hy].
  by rewrite (drop_S _ _ _ Hy).
Qed.

Lemma drop_swap_last {A} (l : list A) i last x w :
  (i ≤ last < length l)%nat → (i = last → w = x) →
  drop last (<[i := w]> (<[last := x]> l)) = x :: drop (S last) l.
Proof.
  intros Hi Hw. destruct (decide (i = last)) as [->|Hne].
  - rewrite Hw, list_insert_insert_eq by done. apply drop_insert_same. lia.
  - rewrite drop_insert_lt by lia. apply drop_insert_same. lia.
Qed.

Lemma drop_succ_tail {A} (l : list A) k : drop (S k) l = tail (drop k l).
Proof. revert l. induction k as [|k IH]; intros [|x l]; simpl; done. Qed.

Lemma Alloc_frame n s r s' :
  wf s → Alloc n s = Ok r s' →
  0 < plen s ∧ plen s' = plen s - 1 ∧
  length (slots s') = length (slots s) ∧
  on_loan s' = r :: on_loan s.
Proof.
  intros Hwf Hrun. pose proof (wf_plen _ Hwf) as Hplen.
  destruct (Alloc_Ok_inv _ _ _ _ Hwf Hrun) as [Hpos Hlim].
  assert (S (Z.to_nat (plen s - 1)) = Z.to_nat (plen s)) as Hlast by lia.
  destruct (Alloc_run n s Hwf Hpos Hlim) as
    [(i & v & w & Hbf & Hi & Hw & Heq)|(_ & Hn & i & w & Hll & Hw & Heq)];
    rewrite Heq in Hrun; injection Hrun as <- <-; unfold on_loan; simpl;
    (split; [lia|]); (split; [done|]); (split; [by rewrite !length_insert|]).
  - destruct Hbf as (? & [_ Hlt]%free_region_lookup & _).
    rewrite <- Hlast. apply drop_swap_last; [lia|]. intros ->. congruence.
  - destruct Hll as (? & [_ Hlt]%free_region_lookup & _).
    rewrite <- Hlast, <- (drop_insert_lt (slots s) _ i (Slice (Some (length (mem s))) n n)) by lia.
    apply drop_swap_last; [rewrite length_insert; lia|].
    intros ->. rewrite list_lookup_insert_eq in Hw by lia. congruence.
Qed.

Lemma Free_frame s s' :
  Free s = Ok tt s' →
  plen s' = plen s + 1 ∧ slots s' = slots s ∧ mem s' = mem s.
Proof. by intros [_ ->]%Free_inv. Qed.

Lemma Free_on_loan s s' :
  0 ≤ plen s → Free s = Ok tt s' → on_loan s' = tail (on_loan s).
Proof.
  intros Hp [_ ->]%Free_inv. unfold on_loan. simpl.
  replace (Z.to_nat (plen s + 1)) with (S (Z.to_nat (plen s))) by lia.
  apply drop_succ_tail.
Qed.

Lemma Calloc_frame n s r s' :
  wf s → Calloc n s = Ok r s' →
  0 < plen s ∧ plen s' = plen s - 1 ∧
  length (slots s') = length (slots s) ∧
  on_loan s' = r :: on_loan s.
Proof.
  intros Hwf (s1 & Ha & Hz)%Calloc_inv.
  destruct (Alloc_frame _ _ _ _ Hwf Ha) as (? & ? & ? & Hl).
  destruct (zero_loop_frame _ _ _ _ Hz) as [Hs Hp].
  unfold on_loan in *. rewrite Hs, Hp. done.
Qed.

(** ** Sequences of calls *)

Lemma exec_app t u : ∀ held s,
  exec (t ++ u) held s = (exec t held ≫= exec u) s.
Proof.
  unfold mbind, M_bind.
  induction t as [|o t IH]; intros held s; [done|].
  destruct o as [n|n| |d i v]; simpl; unfold mbind, M_bind.
  - destruct (Alloc n s); [apply IH|done].
  - destruct (Calloc n s); [apply IH|done].
  - destruct (Free s); [apply IH|done].
  - destruct (held !! d); [|apply IH].
    unfold mbind, M_bind. destruct (poke _ i v s); [apply IH|done].
Qed.

Lemma exec_inv ops : ∀ held s held' s',
  wf s → held = on_loan s → exec ops held s = Ok held' s' →
  wf s' ∧ held' = on_loan s' ∧ length (slots s') = length (slots s).
Proof.
  induction ops as [|o ops IH]; intros held s held' s' Hwf Hheld; simpl.
  - by intros [= <- <-].
  - destruct o as [n|n| |d i v].
    + intros (r & s1 & Ha & Hrest)%bind_inv_Ok.
      destruct (Alloc_frame _ _ _ _ Hwf Ha) as (_ & _ & Hlen & Hl).
      destruct (IH _ _ _ _ (Alloc_wf _ _ _ _ Hwf Ha) (eq_sym (eq_trans Hl (f_equal _ (eq_sym Hheld)))) Hrest)
        as (? & ? & ?). split; [done|split; [done|congruence]].
    + intros (r & s1 & Ha & Hrest)%bind_inv_Ok.
      destruct (Calloc_frame _ _ _ _ Hwf Ha) as (_ & _ & Hlen & Hl).
      destruct (IH _ _ _ _ (Calloc_wf _ _ _ _ Hwf Ha) (eq_sym (eq_trans Hl (f_equal _ (eq_sym Hheld)))) Hrest)
        as (? & ? & ?). split; [done|split; [done|congruence]].
    + intros ([] & s1 & Hf & Hrest)%bind_inv_Ok.
      pose proof (Free_on_loan _ _ (proj1 (wf_plen _ Hwf)) Hf) as Hl.
      destruct (Free_frame _ _ Hf) as (_ & Hs & _).
      destruct (IH _ _ _ _ (Free_wf _ _ Hwf Hf) (eq_sym (eq_trans Hl (f_equal _ (eq_sym Hheld)))) Hrest)
        as (? & ? & ?). split; [done|split; [done|congruence]].
    + destruct (held !! d) as [r|]; [|by apply IH].
      intros ([] & s1 & Hp & Hrest)%bind_inv_Ok.
      pose proof (poke_wf _ _ _ _ _ Hwf Hp) as Hwf1.
      apply poke_inv in Hp as (a & _ & _ & ->).
      by apply (IH held _ _ _ Hwf1 Hheld).
Qed.

Lemma reachable_inv c held s :
  reachable c held s →
  0 ≤ c ∧ wf s ∧ held = on_loan s ∧ Z.of_nat (length (slots s)) = c.
Proof.
  intros (ops & ([] & s0 & HN & Hrun)%bind_inv_Ok).
  pose proof (New_wf _ _ _ HN) as Hwf0.
  pose proof (New_Ok_inv _ _ _ HN) as Hc.
  rewrite New_ok in HN by done. injection HN as <-.
  eapply exec_inv in Hrun as (? & ? & Hlen); [|done|].
  - split; [lia|]. do 2 (split; [done|]). rewrite Hlen. simpl. rewrite length_replicate. lia.
  - unfold on_loan. simpl. rewrite drop_replicate, Nat.sub_diag. done.
Qed.

Lemma reachable_exec c held s ops held' s' :
  reachable c held s → exec ops held s = Ok held' s' → reachable c held' s'.
Proof.
  intros (ops0 & Hrun0) Hrun. exists (ops0 ++ ops).
  apply bind_inv_Ok in Hrun0 as ([] & s0 & HN & Hrun0).
  rewrite (bind_Ok _ _ _ _ _ HN), exec_app. by rewrite (bind_Ok _ _ _ _ _ Hrun0).
Qed.

Lemma reachable_New c : 0 ≤ c ≤ max_slots →
  reachable c [] (State (replicate (Z.to_nat c) nil_slice) c []).
Proof. intros Hc. exists []. by rewrite (bind_Ok _ _ _ _ _ (New_ok c Hc boot)). Qed.

(** A balanced sequence of calls gives back exactly what it borrowed. *)
Lemma balanced_frame t :
  balanced t → ∀ held s held' s',
  wf s → exec t held s = Ok held' s' →
  wf s' ∧ held' = held ∧ plen s' = plen s ∧ on_loan s' = on_loan s.
Proof.
  induction 1 as [|d i v t _ IH|n t u _ IHt _ IHu|n t u _ IHt _ IHu];
    intros held s held' s' Hwf; simpl.
  - by intros [= <- <-].
  - destruct (held !! d) as [r|]; [|by apply IH].
    intros ([] & s1 & Hp & Hrest)%bind_inv_Ok.
    pose proof (poke_wf _ _ _ _ _ Hwf Hp) as Hwf1.
    apply poke_inv in Hp as (a & _ & _ & ->).
    by apply (IH held _ _ _ Hwf1).
  - intros (r & s1 & Ha & Hrest)%bind_inv_Ok.
    rewrite exec_app in Hrest.
    apply bind_inv_Ok in Hrest as (held1 & s2 & Ht & Hrest). simpl in Hrest.
    apply bind_inv_Ok in Hrest as ([] & s3 & Hf & Hu).
    pose proof (Alloc_wf _ _ _ _ Hwf Ha) as Hwf1.
    destruct (Alloc_frame _ _ _ _ Hwf Ha) as (_ & Hp1 & _ & Hl1).
    destruct (IHt _ _ _ _ Hwf1 Ht) as (Hwf2 & -> & Hp2 & Hl2).
    pose proof (Free_wf _ _ Hwf2 Hf) as Hwf3.
    destruct (Free_frame _ _ Hf) as (Hp3 & _ & _).
    pose proof (Free_on_loan _ _ (proj1 (wf_plen _ Hwf2)) Hf) as Hl3.
    destruct (IHu _ _ _ _ Hwf3 Hu) as (Hwf4 & -> & Hp4 & Hl4).
    do 2 (split; [done|]). split; [lia|]. by rewrite Hl4, Hl3, Hl2, Hl1.
  - intros (r & s1 & Ha & Hrest)%bind_inv_Ok.
    rewrite exec_app in Hrest.
    apply bind_inv_Ok in Hrest as (held1 & s2 & Ht & Hrest). simpl in Hrest.
    apply bind_inv_Ok in Hrest as ([] & s3 & Hf & Hu).
    pose proof (Calloc_wf _ _ _ _ Hwf Ha) as Hwf1.
    destruct (Calloc_frame _ _ _ _ Hwf Ha) as (_ & Hp1 & _ & Hl1).
    destruct (IHt _ _ _ _ Hwf1 Ht) as (Hwf2 & -> & Hp2 & Hl2).
    pose proof (Free_wf _ _ Hwf2 Hf) as Hwf3.
    destruct (Free_frame _ _ Hf) as (Hp3 & _ & _).
    pose proof (Free_on_loan _ _ (proj1 (wf_plen _ Hwf2)) Hf) as Hl3.
    destruct (IHu _ _ _ _ Hwf3 Hu) as (Hwf4 & -> & Hp4 & Hl4).
    do 2 (split; [done|]). split; [lia|]. by rewrite Hl4, Hl3, Hl2, Hl1.
Qed.

(** ** Running out of slots, freeing too often *)

Lemma Alloc_succeeds n s :
  wf s → 0 < plen s → n ≤ max_bytes ∨ fits n (free_region s) →
  ∃ r s', Alloc n s = Ok r s'.
Proof.
  intros Hwf Hpos Hlim.
  destruct (Alloc_run n s Hwf Hpos Hlim) as
    [(i & v & w & _ & _ & _ & Heq)|(_ & _ & i & w & _ & _ & Heq)]; eauto.
Qed.

Lemma exec_allocs ns : ∀ held s,
  wf s → plen s = Z.of_nat (length ns) → Forall (λ n, n ≤ max_bytes) ns →
  ∃ held' s', exec (OpAlloc <$> ns) held s = Ok held' s' ∧ wf s' ∧
              plen s' = 0 ∧ length held' = (length ns + length held)%nat.
Proof.
  induction ns as [|n ns IH]; intros held s Hwf Hlen Hns; simpl in *.
  - by exists held, s.
  - apply Forall_cons in Hns as [Hn Hns].
    destruct (Alloc_succeeds n s Hwf) as (r & s1 & Ha); [lia|by left|].
    destruct (Alloc_frame _ _ _ _ Hwf Ha) as (_ & Hp & _ & _).
    destruct (IH (r :: held) s1) as (held' & s' & Hrun & Hwf' & Hp' & Hl');
      [by eapply Alloc_wf|lia|done|].
    exists held', s'. rewrite (bind_Ok _ _ _ _ _ Ha).
    do 3 (split; [done|]). simpl in Hl'. lia.
Qed.

Lemma on_loan_length s :
  wf s → Z.of_nat (length (on_loan s)) = Z.of_nat (length (slots s)) - plen s.
Proof.
  intros Hwf. pose proof (wf_plen _ Hwf). unfold on_loan. rewrite length_drop. lia.
Qed.

Lemma Alloc_panic_inv n s e s' :
  wf s → Alloc n s = Panic e s' →
  s' = s ∧
  (plen s = 0 ∧ e = ErrorsNew out_of_buffers
   ∨ 0 < plen s ∧ ¬ fits n (free_region s) ∧ max_bytes < n ∧
     e = RuntimeError MakeLenOutOfRange).
Proof.
  intros Hwf Hp. pose proof (wf_plen _ Hwf).
  destruct (decide (plen s = 0)) as [H0|Hne].
  - rewrite Alloc_empty in Hp by done. injection Hp as <- <-. split; [done|by left].
  - destruct (Alloc_total n s Hwf ltac:(lia)) as
      [(i & v & w & _ & _ & _ & Ha)|[(_ & _ & _ & i & w & _ & _ & Ha)|(Hno & Hgt & Hp')]];
      [congruence|congruence|].
    rewrite Hp' in Hp. injection Hp as <- <-. split; [done|].
    right. split; [lia|done].
Qed.

(** C10: when [Alloc(n)] panics because the free region is empty, the state
    the panic leaves is the state before the call, with nothing scanned,
    swapped, replaced or moved; a caller that recovers from the panic goes on
    exactly as if the call had not been made. *)
Theorem Alloc_panic_keeps_state (n : Z) (s : state) :
  plen s = 0 →
  Alloc n s = Panic (ErrorsNew out_of_buffers) s ∧
  recover (Alloc n) s = Ok (Some (ErrorsNew out_of_buffers)) s ∧
  ∀ (B : Type) (k : M B), (recover (Alloc n);; k) s = k s.
Proof.
  intros H0. pose proof (Alloc_empty n s H0) as Hp.
  assert (recover (Alloc n) s = Ok (Some (ErrorsNew out_of_buffers)) s) as Hr.
  { unfold recover. by rewrite Hp. }
  split; [done|]. split; [done|].
  intros B k. by rewrite (bind_Ok _ _ _ _ _ Hr).
Qed.

(** C2: a pool made by [New(c)], [c >= 0] within what the runtime grants,
    serves [c] unmatched [Alloc] calls of any sizes the runtime grants and
    panics with the out-of-buffers error on the next one; whatever the client
    did, the number of buffers on loan is [c] minus the length of the free
    region, [Free] succeeds while a buffer is on loan and panics as soon as
    none is. *)
Theorem capacity_is_hard_limit (c : Z) :
  0 ≤ c ≤ max_slots →
  (∀ ns : list Z, length ns = Z.to_nat c → Forall (λ n, n ≤ max_bytes) ns →
     ∃ held s, (New c;; exec (OpAlloc <$> ns) []) boot = Ok held s ∧
               length held = length ns ∧
               ∀ n, Alloc n s = Panic (ErrorsNew out_of_buffers) s) ∧
  (∀ held s, reachable c held s →
     Z.of_nat (length held) = c - plen s ∧
     (held ≠ [] → ∃ s', Free s = Ok tt s' ∧ reachable c (tail held) s') ∧
     (held = [] → ∃ e, Free s = Panic e s)).
Proof.
  intros Hc. split.
  - intros ns Hns Hsizes.
    pose proof (New_ok c Hc boot) as HN.
    destruct (exec_allocs ns [] _ (New_wf _ _ _ HN)) as (held & s & Hrun & _ & Hp & Hl);
      [simpl; lia|done|].
    exists held, s. rewrite (bind_Ok _ _ _ _ _ HN).
    split; [done|]. split; [simpl in Hl; lia|]. intros n. by apply Alloc_empty.
  - intros held s Hreach.
    destruct (reachable_inv _ _ _ Hreach) as (_ & Hwf & -> & Hlen).
    pose proof (on_loan_length _ Hwf) as Hol. pose proof (wf_plen _ Hwf) as Hp.
    split; [lia|]. split.
    + intros Hne.
      assert (length (on_loan s) ≠ 0%nat) by (by destruct (on_loan s)).
      exists (State (slots s) (plen s + 1) (mem s)).
      assert (Free s = Ok tt (State (slots s) (plen s + 1) (mem s))) as Hf
        by (apply Free_ok; lia).
      split; [done|]. eapply (reachable_exec _ _ _ [OpFree]); [done|].
      unfold exec, mbind, M_bind. by rewrite Hf.
    + intros Hnil. rewrite Hnil in Hol. simpl in Hol.
      eexists. apply Free_full. lia.
Qed.

(** ** Last in, first out *)

(** C6: [Alloc] leaves the buffer it returns at the boundary of the free
    region; after any calls that pair up, [Free] succeeds, moves the boundary
    up by one and thereby gives back exactly that buffer's slot: the most
    recently borrowed one that was not yet freed. *)
Theorem Free_returns_latest_borrow (n : Z) (s s1 s2 : state) (r : byteslice)
    (t : list op) (held held2 : list byteslice) :
  wf s → Alloc n s = Ok r s1 → balanced t → exec t held s1 = Ok held2 s2 →
  slots s1 !! Z.to_nat (plen s1) = Some r ∧
  ∃ s3, Free s2 = Ok tt s3 ∧
        plen s3 = plen s2 + 1 ∧ plen s3 = plen s ∧
        slots s3 = slots s2 ∧
        free_region s3 = free_region s2 ++ [r] ∧
        on_loan s2 = r :: on_loan s3 ∧
        on_loan s3 = on_loan s.
Proof.
  intros Hwf Ha Hbal Hrun.
  pose proof (Alloc_wf _ _ _ _ Hwf Ha) as Hwf1.
  destruct (Alloc_frame _ _ _ _ Hwf Ha) as (Hpos & Hp1 & Hlen1 & Hl1).
  destruct (balanced_frame _ Hbal _ _ _ _ Hwf1 Hrun) as (Hwf2 & _ & Hp2 & Hl2).
  pose proof (wf_plen _ Hwf) as Hp. pose proof (wf_plen _ Hwf2) as Hp'.
  assert (∀ s', on_loan s' = r :: on_loan s →
                slots s' !! Z.to_nat (plen s') = Some r) as Hhd.
  { intros s' Hs'. unfold on_loan in Hs'.
    by rewrite <- (Nat.add_0_r (Z.to_nat (plen s'))), <- lookup_drop, Hs'. }
  split; [by apply Hhd|].
  assert (length (on_loan s2) ≠ 0%nat) as Hne by (by rewrite Hl2, Hl1).
  pose proof (on_loan_length _ Hwf2) as Hol.
  assert (Free s2 = Ok tt (State (slots s2) (plen s2 + 1) (mem s2))) as Hf
    by (apply Free_ok; lia).
  eexists. split; [exact Hf|]. simpl.
  pose proof (Free_on_loan _ _ (proj1 Hp') Hf) as Hl3.
  rewrite Hl2, Hl1 in Hl3. simpl in Hl3.
  do 2 (split; [lia|]). split; [done|]. split; [|by rewrite Hl3, Hl2, Hl1].
  unfold free_region. simpl.
  replace (Z.to_nat (plen s2 + 1)) with (S (Z.to_nat (plen s2))) by lia.
  apply take_S_r, Hhd. by rewrite Hl2.
Qed.

(** ** Which slot [Alloc] picks *)

Lemma fits_nonempty n s : wf s → fits n (free_region s) → 0 < plen s.
Proof. intros Hwf (j & w & [_ Hj]%free_region_lookup & _). lia. Qed.

Lemma Alloc_cases n s :
  wf s → 0 < plen s → n ≤ max_bytes ∨ fits n (free_region s) →
  (fits n (free_region s) ∧
   ∃ i v, best_fit n (free_region s) i ∧ slots s !! i = Some v ∧
          Z.of_nat i < plen s ∧ Alloc n s = take_at i s ∧
          ∃ s', take_at i s = Ok v s' ∧ mem s' = mem s ∧
                Forall (λ u, u ∈ slots s) (slots s'))
  ∨ (¬ fits n (free_region s) ∧ 0 < n ∧
     ∃ i, last_largest (free_region s) i ∧
          Z.of_nat i < plen s ∧ Alloc n s = grow_at n i s ∧
          ∃ s', grow_at n i s = Ok (Slice (Some (length (mem s))) n n) s' ∧
                mem s' = mem s ++ [replicate (Z.to_nat n) x00]).
Proof.
  intros Hwf Hpos Hlim.
  destruct (Alloc_run n s Hwf Hpos Hlim) as
    [(i & v & w & Hbf & Hi & Hw & Heq)|(Hno & Hn & i & w & Hll & Hw & Heq)].
  - left. split.
    { destruct Hbf as (u & Hu & ? & _). by exists i, u. }
    exists i, v. split; [done|]. split; [done|].
    split; [by destruct Hbf as (u & [_ ?]%free_region_lookup & _)|].
    unfold take_at. rewrite Hi, Hw. split; [done|].
    eexists. split; [done|]. split; [done|]. simpl.
    apply Forall_insert; [apply Forall_insert|].
    + apply Forall_forall. auto.
    + by eapply list_elem_of_lookup_2.
    + by eapply list_elem_of_lookup_2.
  - right. do 2 (split; [done|]). exists i. split; [done|].
    split; [by destruct Hll as (u & [_ ?]%free_region_lookup & _)|].
    unfold grow_at. rewrite Hw. split; [done|]. by eexists.
Qed.

(** C4: when some free slot has capacity at least [n], [Alloc(n)] takes the
    first smallest such slot and returns that slot's own slice header, hence
    its backing storage; no block is allocated and every slot of the pool is
    one it had before. *)
Theorem Alloc_best_fit (n : Z) (s : state) :
  wf s → fits n (free_region s) →
  ∃ i v s', best_fit n (free_region s) i ∧
            slots s !! i = Some v ∧
            Alloc n s = Ok v s' ∧
            Alloc n s = take_at i s ∧
            mem s' = mem s ∧
            Forall (λ u, u ∈ slots s) (slots s').
Proof.
  intros Hwf Hfit.
  destruct (Alloc_cases n s Hwf (fits_nonempty _ _ Hwf Hfit) (or_intror Hfit)) as
    [(_ & i & v & Hbf & Hi & _ & Heq & s' & Ht & Hm & Hs)|(Hno & _)]; [|done].
  exists i, v, s'. rewrite Heq. done.
Qed.

(** C3, as the code has it: when no free slot has capacity at least [n] and
    the runtime grants [n] bytes, [Alloc(n)] picks the last of the largest
    free slots, puts a fresh zeroed buffer with [len = cap = n] in its place,
    moves it out of the free region and returns it. *)
Theorem Alloc_grows_last_largest (n : Z) (s : state) :
  wf s → 0 < plen s → ¬ fits n (free_region s) → n ≤ max_bytes →
  ∃ i r s', last_largest (free_region s) i ∧
            Alloc n s = grow_at n i s ∧
            Alloc n s = Ok r s' ∧
            len r = n ∧ cap r = n ∧
            block_of s' r = replicate (Z.to_nat n) x00 ∧
            (∀ u, u ∈ slots s → ¬ alias u r) ∧
            plen s' = plen s - 1 ∧
            on_loan s' = r :: on_loan s.
Proof.
  intros Hwf Hpos Hno Hle.
  destruct (Alloc_cases n s Hwf Hpos (or_introl Hle)) as
    [(Hfit & _)|(_ & Hn & i & Hll & _ & Heq & s' & Hg & Hm)]; [done|].
  exists i, (Slice (Some (length (mem s))) n n), s'.
  rewrite Heq. do 3 (split; [done|]). do 2 (split; [done|]).
  rewrite Hg in Heq.
  destruct (Alloc_frame _ _ _ _ Hwf Heq) as (_ & Hp & _ & Hl).
  split; [|split; [|done]].
  - unfold block_of. simpl. rewrite Hm.
    by rewrite lookup_app_r, Nat.sub_diag by lia.
  - intros u [k Hk]%list_elem_of_lookup_1. apply slot_ok_not_fresh.
    eapply (Forall_lookup_1 _ _ _ _ (wf_slots _ Hwf)); eauto.
Qed.

(** ** Buffers on loan *)

(** C9: in every state a client can reach, the buffers handed out and not
    yet given back are exactly the slots above the boundary, one slot each,
    and no two of them share backing storage; a further [Alloc] or [Calloc]
    chooses a slot below the boundary and the buffer it returns shares
    storage with none of those still on loan. *)
Theorem borrows_never_alias (c : Z) (held : list byteslice) (s : state) :
  reachable c held s →
  held = on_loan s ∧ distinct held ∧
  (∀ n r s', Alloc n s = Ok r s' →
     (∀ r0, r0 ∈ held → ¬ alias r r0) ∧
     ∃ i, Z.of_nat i < plen s ∧
          (Alloc n s = take_at i s ∨ Alloc n s = grow_at n i s)) ∧
  (∀ n r s', Calloc n s = Ok r s' → ∀ r0, r0 ∈ held → ¬ alias r r0).
Proof.
  intros Hreach.
  destruct (reachable_inv _ _ _ Hreach) as (_ & Hwf & Hheld & _).
  split; [done|]. split.
  { rewrite Hheld. apply distinct_drop, Hwf. }
  assert (∀ r s', wf s' → on_loan s' = r :: held →
                  ∀ r0, r0 ∈ held → ¬ alias r r0) as Hfresh.
  { intros r s' Hwf' Hl r0 [k Hk]%list_elem_of_lookup_1 Hal.
    pose proof (distinct_drop _ (Z.to_nat (plen s')) (wf_distinct _ Hwf')) as Hd.
    fold (on_loan s') in Hd. rewrite Hl in Hd.
    by specialize (Hd 0%nat (S k) r r0 eq_refl Hk Hal). }
  split.
  - intros n r s' Ha. split.
    + apply (Hfresh r s'); [by eapply Alloc_wf|].
      rewrite Hheld. by eapply Alloc_frame.
    + destruct (Alloc_Ok_inv _ _ _ _ Hwf Ha) as [Hpos Hlim].
      destruct (Alloc_cases n s Hwf Hpos Hlim) as
        [(_ & i & v & _ & _ & Hi & Heq & _)|(_ & _ & i & _ & Hi & Heq & _)];
        exists i; auto.
  - intros n r s' Ha.
    apply (Hfresh r s'); [by eapply Calloc_wf|].
    rewrite Hheld. by eapply Calloc_frame.
Qed.

(** ** Statistics *)

Lemma wrap_small z : - 2 ^ 63 ≤ z < 2 ^ 63 → wrap z = z.
Proof. intros H. unfold wrap. rewrite Z.mod_small; lia. Qed.

Lemma total_cap_nonneg vs : Forall (λ v, 0 ≤ cap v) vs → 0 ≤ total_cap vs.
Proof. induction 1; simpl; lia. Qed.

Lemma total_cap_app vs ws : total_cap (vs ++ ws) = total_cap vs + total_cap ws.
Proof. induction vs as [|v vs IH]; simpl; lia. Qed.

Lemma stats_loop_from vs : ∀ acc,
  Forall (λ v, 0 ≤ cap v) vs → 0 ≤ acc → acc + total_cap vs < 2 ^ 63 →
  fold_left (λ bytes v, wrap (bytes + cap v)) vs acc = acc + total_cap vs.
Proof.
  induction vs as [|v vs IH]; intros acc Hvs Hacc Hsum; simpl in *; [lia|].
  apply Forall_cons in Hvs as [Hv Hvs].
  pose proof (total_cap_nonneg _ Hvs).
  rewrite wrap_small by lia. rewrite IH by (done || lia). lia.
Qed.

(** C8: in every state a client can reach, [Stats()] returns the sum of the
    capacities of all slots, those in the free region and those on loan
    alike, and leaves the state as it was.  The sum is taken to fit the
    64-bit [int], as the memory of a Go program does. *)
Theorem Stats_sums_all_slots (c : Z) (held : list byteslice) (s : state) :
  reachable c held s → total_cap (slots s) < 2 ^ 63 →
  Stats s = Ok (total_cap (free_region s) + total_cap (on_loan s)) s ∧
  total_cap (free_region s) + total_cap (on_loan s) = total_cap (slots s).
Proof.
  intros Hreach Hfit.
  destruct (reachable_inv _ _ _ Hreach) as (_ & Hwf & _ & _).
  assert (total_cap (free_region s) + total_cap (on_loan s) = total_cap (slots s)) as Hsplit.
  { unfold free_region, on_loan. by rewrite <- total_cap_app, take_drop. }
  split; [|done]. rewrite Hsplit.
  unfold Stats. rewrite (bind_Ok _ _ s (Z.of_nat (length (slots s))) s) by done.
  rewrite (bind_Ok _ _ _ _ _ (reslice_ok (Z.of_nat (length (slots s))) s ltac:(lia))).
  unfold elems, mbind, M_bind, mret, M_ret. rewrite Nat2Z.id, firstn_all.
  unfold stats_loop. rewrite stats_loop_from; [done| |done|lia].
  eapply Forall_impl; [apply (wf_sizes _ Hwf)|]. by intros v [_ ?].
Qed.

(** ** The two panics *)

(** C5, as the code has it: [Alloc] on an empty free region panics with the
    package's own error value, [Free] with nothing on loan panics with the
    runtime's slice-bounds error; both leave the state as it was, a caller
    that recovers observes the panic value, and the two values differ, the
    first not being a runtime error. *)
Theorem fatal_conditions (n : Z) (s s' : state) :
  plen s = 0 → plen s' = Z.of_nat (length (slots s')) →
  let e_alloc := ErrorsNew out_of_buffers in
  let e_free := RuntimeError
                  (SliceBoundsOutOfRange (plen s' + 1) (Z.of_nat (length (slots s')))) in
  Alloc n s = Panic e_alloc s ∧
  Free s' = Panic e_free s' ∧
  recover (Alloc n) s = Ok (Some e_alloc) s ∧
  recover Free s' = Ok (Some e_free) s' ∧
  ¬ generic_crash e_alloc ∧ generic_crash e_free ∧ e_alloc ≠ e_free.
Proof.
  intros Hs Hs' e_alloc e_free.
  pose proof (Alloc_empty n s Hs) as Ha. pose proof (Free_full s' Hs') as Hf.
  split; [done|]. split; [done|].
  split; [unfold recover; by rewrite Ha|]. split; [unfold recover; by rewrite Hf|].
  split; [by intros [? ?]|]. split; [by eexists|done].
Qed.

(** ** The length of what [Alloc] returns *)

Lemma Alloc_length n s r s' :
  wf s → Alloc n s = Ok r s' →
  (¬ fits n (free_region s) → len r = n) ∧
  (fits n (free_region s) →
     ∃ i v, best_fit n (free_region s) i ∧ slots s !! i = Some v ∧
            r = v ∧ len r = cap v ∧ n ≤ len r).
Proof.
  intros Hwf Ha. destruct (Alloc_Ok_inv _ _ _ _ Hwf Ha) as [Hpos Hlim].
  destruct (Alloc_cases n s Hwf Hpos Hlim) as
    [(Hfit & i & v & Hbf & Hi & _ & Heq & s1 & Ht & _)
    |(Hno & _ & i & _ & _ & Heq & s1 & Hg & _)];
    rewrite Heq in Ha.
  - rewrite Ht in Ha. injection Ha as <- <-. split; [done|].
    intros _. exists i, v. do 3 (split; [done|]).
    destruct Hbf as (u & [Hu _]%free_region_lookup & Hn & _).
    assert (u = v) as -> by congruence.
    destruct (slot_ok_len _ _ (Forall_lookup_1 _ _ _ _ (wf_slots _ Hwf) Hi)). lia.
  - rewrite Hg in Ha. injection Ha as <- <-. by split.
Qed.

(** ** Zeroing *)

Lemma zero_idx_length idx : ∀ blk, length (zero_idx idx blk) = length blk.
Proof.
  induction idx as [|i idx IH]; intros blk; simpl; [done|].
  by rewrite IH, length_insert.
Qed.

Lemma zero_idx_lookup idx : ∀ blk j,
  Forall (λ i, 0 ≤ i) idx →
  zero_idx idx blk !! j
  = if decide (Z.of_nat j ∈ idx) then (λ _, x00) <$> blk !! j else blk !! j.
Proof.
  induction idx as [|i idx IH]; intros blk j Hidx; cbn [zero_idx].
  - by rewrite decide_False by apply not_elem_of_nil.
  - apply Forall_cons in Hidx as [Hi Hidx]. rewrite IH by done.
    destruct (decide (j = Z.to_nat i)) as [->|Hne].
    + rewrite (decide_True (P := Z.of_nat (Z.to_nat i) ∈ i :: idx))
        by (rewrite Z2Nat.id by done; apply list_elem_of_here).
      destruct (decide (Z.to_nat i < length blk)%nat) as [Hlt|Hge].
      * rewrite list_lookup_insert_eq by done.
        destruct (lookup_lt_is_Some_2 _ _ Hlt) as [y ->].
        by case_decide.
      * rewrite list_insert_ge by lia. rewrite lookup_ge_None_2 by lia.
        by case_decide.
    + rewrite list_lookup_insert_ne by done.
      destruct (decide (Z.of_nat j ∈ idx)) as [Hin|Hnin].
      * by rewrite decide_True by (by apply list_elem_of_further).
      * rewrite decide_False; [done|].
        intros [?|?]%elem_of_cons; [lia|done].
Qed.

Lemma zero_idx_all n blk :
  Z.of_nat (length blk) = n → zero_idx (seqZ 0 n) blk = replicate (length blk) x00.
Proof.
  intros Hn. apply list_eq. intros j.
  rewrite zero_idx_lookup.
  2:{ apply Forall_forall. intros i ?%elem_of_seqZ. lia. }
  destruct (decide (j < length blk)%nat) as [Hlt|Hge].
  - rewrite decide_True by (apply elem_of_seqZ; lia).
    destruct (lookup_lt_is_Some_2 _ _ Hlt) as [y ->].
    by rewrite lookup_replicate_2.
  - rewrite decide_False by (rewrite elem_of_seqZ; lia).
    rewrite lookup_ge_None_2 by lia. symmetry. apply lookup_replicate_None. lia.
Qed.

Lemma zero_loop_run r a idx : ∀ s,
  data r = Some a → Forall (λ i, 0 ≤ i < len r) idx →
  zero_loop r idx s = Ok tt (State (slots s) (plen s) (alter (zero_idx idx) a (mem s))).
Proof.
  induction idx as [|i idx IH]; intros s Ha Hidx; simpl.
  - rewrite list_alter_id by done. by destruct s.
  - apply Forall_cons in Hidx as [Hi Hidx].
    assert (poke r i x00 s
            = Ok tt (State (slots s) (plen s) (alter (<[Z.to_nat i := x00]>) a (mem s))))
      as Hp.
    { unfold poke. rewrite Ha.
      by rewrite (proj2 (Z.leb_le _ _)), (proj2 (Z.ltb_lt _ _)) by lia. }
    rewrite (bind_Ok _ _ _ _ _ Hp), IH by done. simpl.
    by rewrite list_alter_alter_eq.
Qed.

(** What [Calloc] does: [Alloc], then every byte of the returned slice, in
    its whole length, is set to zero; nothing else changes. *)
Lemma Calloc_run n s r s' :
  wf s → Calloc n s = Ok r s' →
  ∃ s1, Alloc n s = Ok r s1 ∧
        slots s' = slots s1 ∧ plen s' = plen s1 ∧
        block_of s' r = replicate (Z.to_nat (len r)) x00 ∧
        ∀ b, data r ≠ Some b → mem s' !! b = mem s1 !! b.
Proof.
  intros Hwf (s1 & Ha & Hz)%Calloc_inv. exists s1. split; [done|].
  pose proof (Alloc_wf _ _ _ _ Hwf Ha) as Hwf1.
  destruct (Alloc_frame _ _ _ _ Hwf Ha) as (_ & _ & _ & Hl).
  assert (slot_ok (mem s1) r) as Hr.
  { eapply (Forall_lookup_1 _ _ (Z.to_nat (plen s1) + 0) _ (wf_slots _ Hwf1)).
    unfold on_loan in Hl. by rewrite <- lookup_drop, Hl. }
  unfold slot_ok in Hr. unfold block_of.
  destruct (data r) as [a|] eqn:Hd.
  - destruct Hr as (blk & Hblk & Hlen & _).
    rewrite (zero_loop_run r a) in Hz; [|done|].
    2:{ apply Forall_forall. intros i ?%elem_of_seqZ. lia. }
    injection Hz as <-. simpl. do 2 (split; [done|]). split.
    + rewrite list_lookup_alter_eq, Hblk. simpl.
      rewrite zero_idx_all by done. f_equal. lia.
    + intros b Hb. apply list_lookup_alter_ne. congruence.
  - destruct Hr as [Hlen _]. rewrite Hlen in Hz. simpl in Hz.
    injection Hz as <-. by rewrite Hlen.
Qed.

(** * Further properties of the package *)

(** ** When [Alloc] and [Calloc] fail *)

(** X1: on a well-formed pool [Alloc(n)] succeeds for every [n], negative
    ones included, as soon as one slot is free and either some free slot
    fits or the runtime grants [n] bytes, and it keeps the pool well-formed.
    It panics only with the out-of-buffers error, on an empty free region,
    or with the length error of [make], when no free slot fits and the
    runtime refuses [n] bytes; either panic leaves the state as it was.  No
    index expression of the function can fail. *)
Theorem Alloc_panics_only_for_depth_or_size (n : Z) (s : state) :
  wf s →
  (0 < plen s → n ≤ max_bytes ∨ fits n (free_region s) →
     ∃ r s', Alloc n s = Ok r s' ∧ wf s') ∧
  (∀ e s', Alloc n s = Panic e s' →
     s' = s ∧
     (plen s = 0 ∧ e = ErrorsNew out_of_buffers
      ∨ 0 < plen s ∧ ¬ fits n (free_region s) ∧ max_bytes < n ∧
        e = RuntimeError MakeLenOutOfRange)).
Proof.
  intros Hwf. split.
  - intros Hpos Hlim. destruct (Alloc_succeeds n s Hwf Hpos Hlim) as (r & s' & Ha).
    exists r, s'. split; [done|]. by eapply Alloc_wf.
  - intros e s'. by apply Alloc_panic_inv.
Qed.

(** X2: the buffer [Alloc(n)] returns has at least [n] bytes and its length
    equals its capacity: exactly [n] when no free slot fits, otherwise the
    capacity of the chosen slot, which no fitting free slot undercuts. *)
Theorem Alloc_result_shape (n : Z) (s s' : state) (r : byteslice) :
  wf s → Alloc n s = Ok r s' →
  n ≤ len r ∧ cap r = len r ∧
  (¬ fits n (free_region s) → len r = n) ∧
  (∀ u, u ∈ free_region s → n ≤ cap u → len r ≤ cap u).
Proof.
  intros Hwf Ha.
  destruct (Alloc_length _ _ _ _ Hwf Ha) as [Hgrow Hfit].
  destruct (Alloc_Ok_inv _ _ _ _ Hwf Ha) as [Hpos Hlim].
  destruct (Alloc_cases n s Hwf Hpos Hlim) as [(Hf & _)|(Hno & Hn & _)].
  - destruct (Hfit Hf) as (i & v & Hbf & Hi & -> & Hlen & Hle).
    split; [done|]. split; [done|]. split; [done|].
    intros u [j Hj]%list_elem_of_lookup_1 Hu.
    destruct Hbf as (v' & Hv' & _ & Hmin & _).
    apply free_region_lookup in Hv' as [Hv' _].
    assert (v' = v) as -> by congruence. rewrite Hlen. eauto.
  - specialize (Hgrow Hno).
    destruct (Alloc_run n s Hwf Hpos Hlim) as
      [(i & v & w & (u & Hu & ? & _) & _)|(_ & _ & i & w & _ & _ & Heq)].
    { destruct Hno. by exists i, u. }
    rewrite Heq in Ha. injection Ha as <- <-. simpl. split; [lia|].
    split; [done|]. split; [done|].
    intros u [j Hj]%list_elem_of_lookup_1 Hu. destruct Hno. by exists j, u.
Qed.

Lemma Calloc_succeeds n s r s1 :
  wf s → Alloc n s = Ok r s1 → ∃ s', Calloc n s = Ok r s'.
Proof.
  intros Hwf Ha. pose proof (Alloc_wf _ _ _ _ Hwf Ha) as Hwf1.
  destruct (Alloc_frame _ _ _ _ Hwf Ha) as (_ & _ & _ & Hl).
  assert (slot_ok (mem s1) r) as Hr.
  { eapply (Forall_lookup_1 _ _ (Z.to_nat (plen s1) + 0) _ (wf_slots _ Hwf1)).
    unfold on_loan in Hl. by rewrite <- lookup_drop, Hl. }
  unfold Calloc. rewrite (bind_Ok _ _ _ _ _ Ha).
  unfold slot_ok in Hr. destruct (data r) as [a|] eqn:Hd.
  - eexists. erewrite bind_Ok; [done|].
    apply (zero_loop_run r a); [done|].
    apply Forall_forall. intros i ?%elem_of_seqZ. lia.
  - destruct Hr as [-> _]. by eexists.
Qed.

(** X3: [Calloc(n)] fails exactly when [Alloc(n)] does, with the same panic;
    otherwise it returns the buffer [Alloc(n)] returns, with every byte of
    its whole length set to zero, and changes neither the slots, the
    boundary, the size of the heap nor a byte of any other block. *)
Theorem Calloc_is_Alloc_then_zero (n : Z) (s : state) :
  wf s →
  (∀ e s', Alloc n s = Panic e s' → Calloc n s = Panic e s') ∧
  (∀ r s1, Alloc n s = Ok r s1 →
     ∃ s', Calloc n s = Ok r s' ∧
           slots s' = slots s1 ∧ plen s' = plen s1 ∧
           block_of s' r = replicate (Z.to_nat (len r)) x00 ∧
           length (mem s') = length (mem s1) ∧
           ∀ b, data r ≠ Some b → mem s' !! b = mem s1 !! b).
Proof.
  intros Hwf. split.
  - intros e s' Hp. unfold Calloc. by rewrite (bind_Panic _ _ _ _ _ Hp).
  - intros r s1 Ha. destruct (Calloc_succeeds _ _ _ _ Hwf Ha) as (s' & Hc).
    destruct (Calloc_run _ _ _ _ Hwf Hc) as (s1' & Ha' & Hs & Hp & Hz & Hother).
    assert (s1' = s1) as -> by congruence.
    exists s'. do 4 (split; [done|]). split; [|done].
    apply Calloc_inv in Hc as (s1' & Ha'' & Hloop).
    assert (s1' = s1) as -> by congruence.
    clear -Hloop. revert Hloop. generalize (seqZ 0 (len r)). intros idx.
    revert s1. induction idx as [|i idx IH]; intros s1; simpl.
    + by intros [= <-].
    + intros ([] & s2 & (a & _ & _ & ->)%poke_inv & Hrest)%bind_inv_Ok.
      rewrite (IH _ Hrest). simpl. apply length_alter.
Qed.

(** ** What [Alloc] changes *)

Lemma total_cap_perm l k : l ≡ₚ k → total_cap l = total_cap k.
Proof. induction 1; simpl; lia. Qed.

Lemma total_cap_insert l : ∀ i x y,
  l !! i = Some y → total_cap (<[i := x]> l) = total_cap l - cap y + cap x.
Proof.
  induction l as [|z l IH]; intros [|i] x y Hi; simplify_eq/=; [lia|].
  rewrite (IH _ _ _ Hi). lia.
Qed.

Lemma Alloc_slots n s r s' :
  wf s → Alloc n s = Ok r s' →
  (fits n (free_region s) ∧ r ∈ free_region s ∧
   slots s' ≡ₚ slots s ∧ mem s' = mem s)
  ∨ (¬ fits n (free_region s) ∧ 0 < n ∧
     r = Slice (Some (length (mem s))) n n ∧
     mem s' = mem s ++ [replicate (Z.to_nat n) x00] ∧
     ∃ i v, free_region s !! i = Some v ∧ cap v < n ∧
            slots s' ≡ₚ <[i := r]> (slots s)).
Proof.
  intros Hwf Ha. destruct (Alloc_Ok_inv _ _ _ _ Hwf Ha) as [Hpos Hlim].
  destruct (Alloc_run n s Hwf Hpos Hlim) as
    [(i & v & w & Hbf & Hi & Hw & Heq)|(Hno & Hn & i & w & Hll & Hw & Heq)];
    rewrite Heq in Ha; injection Ha as <- <-; simpl.
  - left. destruct Hbf as (u & Hu & Hfit & _).
    split; [by exists i, u|]. split.
    + apply free_region_lookup in Hu as Hu'. destruct Hu' as [Hu' _].
      assert (u = v) as -> by congruence. by eapply list_elem_of_lookup_2.
    + split; [|done]. by apply Permutation_insert_swap.
  - right. do 4 (split; [done|]).
    destruct Hll as (v & Hv & _). exists i, v. split; [done|]. split.
    + destruct (Z.le_gt_cases n (cap v)); [|lia]. destruct Hno. by exists i, v.
    + apply Permutation_insert_swap; [done|].
      apply free_region_lookup in Hv as [Hv%lookup_lt_Some _].
      by apply list_lookup_insert_eq.
Qed.

(** X4: a successful [Alloc(n)] either finds a fitting free slot, and then
    only reorders the slots of the pool and allocates nothing, or it replaces
    exactly one free slot, of capacity below [n], by a new buffer of [n]
    bytes; the total capacity [Stats] reports grows by the difference. *)
Theorem Alloc_reorders_or_replaces_one (n : Z) (s s' : state) (r : byteslice) :
  wf s → Alloc n s = Ok r s' →
  (fits n (free_region s) →
     slots s' ≡ₚ slots s ∧ mem s' = mem s ∧
     total_cap (slots s') = total_cap (slots s)) ∧
  (¬ fits n (free_region s) →
     ∃ i v, free_region s !! i = Some v ∧ cap v < n ∧
            slots s' ≡ₚ <[i := r]> (slots s) ∧
            length (mem s') = S (length (mem s)) ∧
            total_cap (slots s') = total_cap (slots s) + (n - cap v)).
Proof.
  intros Hwf Ha.
  destruct (Alloc_slots _ _ _ _ Hwf Ha) as
    [(Hfit & _ & Hperm & Hmem)|(Hno & Hn & Hr & Hmem & i & v & Hv & Hlt & Hperm)];
    split; try done.
  - intros _. split; [done|]. split; [done|]. by apply total_cap_perm.
  - intros _. exists i, v. do 3 (split; [done|]). split.
    + rewrite Hmem, length_app. simpl. lia.
    + rewrite (total_cap_perm _ _ Hperm).
      apply free_region_lookup in Hv as [Hv _].
      rewrite (total_cap_insert _ _ _ _ Hv), Hr. simpl. lia.
Qed.

(** X5: [Alloc] writes no byte of a block that exists: every block keeps
    its content, so a buffer taken from a free slot comes back with whatever
    its last user left in it, while a buffer made anew is all zero. *)
Theorem Alloc_keeps_bytes (n : Z) (s s' : state) (r : byteslice) :
  wf s → Alloc n s = Ok r s' →
  (∀ a blk, mem s !! a = Some blk → mem s' !! a = Some blk) ∧
  (fits n (free_region s) → block_of s' r = block_of s r) ∧
  (¬ fits n (free_region s) → block_of s' r = replicate (Z.to_nat n) x00).
Proof.
  intros Hwf Ha.
  destruct (Alloc_slots _ _ _ _ Hwf Ha) as
    [(Hfit & _ & _ & Hmem)|(Hno & Hn & Hr & Hmem & _)].
  - split; [by rewrite Hmem|]. split; [|done].
    intros _. unfold block_of. by rewrite Hmem.
  - split; [intros a blk Hblk; rewrite Hmem; by apply lookup_app_l_Some|].
    split; [done|]. intros _. unfold block_of. rewrite Hr, Hmem. simpl.
    by rewrite lookup_app_r, Nat.sub_diag by lia.
Qed.

(** ** Capacity over a sequence of calls *)

Lemma zero_loop_mem_length r idx : ∀ s s',
  zero_loop r idx s = Ok tt s' → length (mem s') = length (mem s).
Proof.
  induction idx as [|i idx IH]; intros s s'; simpl.
  - by intros [= <-].
  - intros ([] & s1 & (a & _ & _ & ->)%poke_inv & Hrest)%bind_inv_Ok.
    rewrite (IH _ _ Hrest). simpl. apply length_alter.
Qed.

Lemma Calloc_frame_mem n s r s' :
  wf s → Calloc n s = Ok r s' →
  ∃ s1, Alloc n s = Ok r s1 ∧ slots s' = slots s1 ∧
        length (mem s') = length (mem s1).
Proof.
  intros Hwf (s1 & Ha & Hz)%Calloc_inv. exists s1. split; [done|].
  destruct (zero_loop_frame _ _ _ _ Hz) as [Hs _].
  split; [done|]. by eapply zero_loop_mem_length.
Qed.

(** X6: over any sequence of calls that runs through, the total capacity of
    the pool, which is what [Stats] reports, never goes down and the heap
    never loses a block: [Free] and the zeroing of [Calloc] change neither,
    [Alloc] can only add. *)
Theorem capacity_never_shrinks (ops : list op) :
  ∀ (held : list byteslice) (s : state) (held' : list byteslice) (s' : state),
  wf s → exec ops held s = Ok held' s' →
  total_cap (slots s) ≤ total_cap (slots s') ∧
  (length (mem s) ≤ length (mem s'))%nat.
Proof.
  assert (∀ n s r s', wf s → Alloc n s = Ok r s' →
            total_cap (slots s) ≤ total_cap (slots s') ∧
            (length (mem s) ≤ length (mem s'))%nat) as HA.
  { intros n s r s' Hwf Ha.
    destruct (Alloc_slots _ _ _ _ Hwf Ha) as
      [(_ & _ & Hperm & Hmem)|(_ & Hn & Hr & Hmem & i & v & Hv & Hlt & Hperm)].
    - rewrite (total_cap_perm _ _ Hperm), Hmem. done.
    - rewrite (total_cap_perm _ _ Hperm), Hmem, length_app.
      apply free_region_lookup in Hv as [Hv _].
      rewrite (total_cap_insert _ _ _ _ Hv), Hr. simpl. lia. }
  induction ops as [|o ops IH]; intros held s held' s' Hwf; simpl.
  - by intros [= <- <-].
  - destruct o as [n|n| |d i v].
    + intros (r & s1 & Ha & Hrest)%bind_inv_Ok.
      destruct (HA _ _ _ _ Hwf Ha), (IH _ _ _ _ (Alloc_wf _ _ _ _ Hwf Ha) Hrest). lia.
    + intros (r & s1 & Hc & Hrest)%bind_inv_Ok.
      pose proof (Calloc_wf _ _ _ _ Hwf Hc) as Hwf1.
      destruct (Calloc_frame_mem _ _ _ _ Hwf Hc) as (s0 & Ha & Hs & Hm).
      destruct (HA _ _ _ _ Hwf Ha) as [H1 H2], (IH _ _ _ _ Hwf1 Hrest) as [H3 H4].
      rewrite Hs in H3. rewrite Hm in H4. lia.
    + intros ([] & s1 & Hf & Hrest)%bind_inv_Ok.
      destruct (Free_frame _ _ Hf) as (_ & Hs & Hm).
      destruct (IH _ _ _ _ (Free_wf _ _ Hwf Hf) Hrest) as [H3 H4].
      rewrite Hs in H3. rewrite Hm in H4. lia.
    + destruct (held !! d) as [r|]; [|by apply IH].
      intros ([] & s1 & Hp & Hrest)%bind_inv_Ok.
      pose proof (poke_wf _ _ _ _ _ Hwf Hp) as Hwf1.
      apply poke_inv in Hp as (a & _ & _ & ->).
      destruct (IH _ _ _ _ Hwf1 Hrest) as [H1 H2]. simpl in *.
      rewrite length_alter in H2. lia.
Qed.

(** ** Reuse *)

(** X7: once [Alloc(n)] has handed out a buffer and, after calls that pair
    up, [Free] has taken it back, every request for at most [n] bytes is
    served from a free slot no larger than that buffer and allocates
    nothing. *)
Theorem freed_buffer_serves_smaller_requests (n m : Z) (s s1 s2 s3 : state)
    (r : byteslice) (t : list op) (held held2 : list byteslice) :
  wf s → Alloc n s = Ok r s1 → balanced t → exec t held s1 = Ok held2 s2 →
  Free s2 = Ok tt s3 → m ≤ n →
  ∃ r' s4, Alloc m s3 = Ok r' s4 ∧ mem s4 = mem s3 ∧ m ≤ cap r' ∧ cap r' ≤ cap r.
Proof.
  intros Hwf Ha Hbal Hrun Hf Hm.
  pose proof (Alloc_wf _ _ _ _ Hwf Ha) as Hwf1.
  destruct (Alloc_frame _ _ _ _ Hwf Ha) as (Hpos & Hp1 & _ & Hl1).
  destruct (Alloc_length _ _ _ _ Hwf Ha) as [Hgrow Hfit].
  destruct (balanced_frame _ Hbal _ _ _ _ Hwf1 Hrun) as (Hwf2 & _ & Hp2 & Hl2).
  pose proof (Free_wf _ _ Hwf2 Hf) as Hwf3.
  apply Free_inv in Hf as [Hlt ->].
  pose proof (wf_plen _ Hwf2) as Hp.
  assert (slots s2 !! Z.to_nat (plen s2) = Some r) as Hr.
  { assert (on_loan s2 !! 0%nat = Some r) as H0 by (by rewrite Hl2, Hl1).
    unfold on_loan in H0. by rewrite lookup_drop, Nat.add_0_r in H0. }
  set (s3 := State (slots s2) (plen s2 + 1) (mem s2)) in *.
  assert (free_region s3 !! Z.to_nat (plen s2) = Some r) as Hr3.
  { apply free_region_lookup. simpl. split; [done|lia]. }
  assert (n ≤ cap r) as Hn.
  { destruct (slot_ok_len _ _ (Forall_lookup_1 _ _ _ _ (wf_slots _ Hwf2) Hr)) as [Hlen _].
    rewrite <- Hlen.
    destruct (Alloc_Ok_inv _ _ _ _ Hwf Ha) as [_ Hlim].
    destruct (Alloc_cases n s Hwf Hpos Hlim) as [(Hf & _)|(Hno & _)].
    - destruct (Hfit Hf) as (_ & _ & _ & _ & _ & _ & ?). done.
    - rewrite (Hgrow Hno). done. }
  assert (fits m (free_region s3)) as Hfits.
  { exists (Z.to_nat (plen s2)), r. split; [done|lia]. }
  destruct (Alloc_cases m s3 Hwf3 (fits_nonempty _ _ Hwf3 Hfits) (or_intror Hfits)) as
    [(_ & i & v & Hbf & Hi & _ & Heq & s4 & Ht & Hmem & _)|(Hno & _)]; [|done].
  exists v, s4. rewrite Heq. do 2 (split; [done|]).
  destruct Hbf as (v' & Hv' & Hmv & Hmin & _).
  apply free_region_lookup in Hv' as Hv''. destruct Hv'' as [Hv'' _].
  assert (v' = v) as -> by congruence.
  split; [done|]. apply (Hmin _ _ Hr3). lia.
Qed.

(** ** Exactly when a sequence of calls panics *)

(** X8: a sequence of [Alloc], [Calloc] and [Free] calls on a well-formed
    pool, none of them asking for more than the runtime grants, runs through
    without a panic exactly when it never borrows with the free region empty
    and never frees with nothing on loan; within that limit the sizes asked
    for play no part. *)
Theorem calls_run_iff_depth_ok (ops : list op) :
  ∀ (held : list byteslice) (s : state),
  wf s → Forall (λ o, is_call o = true) ops →
  Forall (asks_at_most max_bytes) ops →
  (∃ held' s', exec ops held s = Ok held' s') ↔
  depth_ok ops (Z.to_nat (plen s)) (length (slots s) - Z.to_nat (plen s)) = true.
Proof.
  induction ops as [|o ops IH]; intros held s Hwf Hcalls Hsizes.
  { simpl. split; [done|]. intros _. by exists held, s. }
  apply Forall_cons in Hcalls as [Hcall Hcalls].
  apply Forall_cons in Hsizes as [Hsize Hsizes].
  pose proof (wf_plen _ Hwf) as Hp.
  assert (∀ (m : M byteslice),
    (∀ r s1, m s = Ok r s1 →
             wf s1 ∧ 0 < plen s ∧ plen s1 = plen s - 1 ∧
             length (slots s1) = length (slots s)) →
    (0 < plen s → ∃ r s1, m s = Ok r s1) →
    (∃ held' s', (r ← m; exec ops (r :: held)) s = Ok held' s') ↔
    match Z.to_nat (plen s) with
    | O => false
    | S f => depth_ok ops f (S (length (slots s) - Z.to_nat (plen s)))
    end = true) as Hborrow.
  { intros m Hframe Hok. destruct (Z.to_nat (plen s)) as [|f] eqn:Hfree.
    - split; [|done]. intros (held' & s' & (r & s1 & Hm & _)%bind_inv_Ok).
      destruct (Hframe _ _ Hm) as (_ & ? & _). lia.
    - destruct Hok as (r & s1 & Hm); [lia|].
      destruct (Hframe _ _ Hm) as (Hwf1 & _ & Hp1 & Hlen1).
      specialize (IH (r :: held) s1 Hwf1 Hcalls Hsizes).
      replace (Z.to_nat (plen s1)) with f in IH by lia.
      replace (length (slots s1) - f)%nat
        with (S (length (slots s) - S f)) in IH by lia.
      rewrite <- IH. by rewrite (bind_Ok _ _ _ _ _ Hm). }
  destruct o as [n|n| |d i v]; simpl in *; [| | |done].
  - apply Hborrow.
    + intros r s1 Ha. split; [by eapply Alloc_wf|].
      destruct (Alloc_frame _ _ _ _ Hwf Ha) as (? & ? & ? & _). done.
    + intros Hpos. by apply Alloc_succeeds; [| |left].
  - apply Hborrow.
    + intros r s1 Hc. split; [by eapply Calloc_wf|].
      destruct (Calloc_frame _ _ _ _ Hwf Hc) as (? & ? & ? & _). done.
    + intros Hpos.
      destruct (Alloc_succeeds n s Hwf Hpos (or_introl Hsize)) as (r & s1 & Ha).
      destruct (Calloc_succeeds _ _ _ _ Hwf Ha) as (s' & Hc). eauto.
  - destruct (length (slots s) - Z.to_nat (plen s))%nat as [|l] eqn:Hloan.
    + split; [|done]. intros (held' & s' & ([] & s1 & Hf & _)%bind_inv_Ok).
      apply Free_inv in Hf as [? _]. lia.
    + assert (Free s = Ok tt (State (slots s) (plen s + 1) (mem s))) as Hf
        by (apply Free_ok; lia).
      specialize (IH (tail held) _ (Free_wf _ _ Hwf Hf) Hcalls Hsizes). simpl in IH.
      replace (Z.to_nat (plen s + 1)) with (S (Z.to_nat (plen s))) in IH by lia.
      replace (length (slots s) - S (Z.to_nat (plen s)))%nat with l in IH by lia.
      rewrite <- IH. by rewrite (bind_Ok _ _ _ _ _ Hf).
Qed.

(** ** A fresh pool *)

Lemma all_nil_last_largest k i :
  last_largest (replicate k nil_slice) i → S i = k.
Proof.
  intros (v & [-> Hi]%lookup_replicate & _ & Hlast).
  destruct (decide (S i = k)) as [|Hne]; [done|].
  assert (replicate k nil_slice !! (S i) = Some nil_slice) as Hj
    by (apply lookup_replicate_2; lia).
  specialize (Hlast _ _ Hj). simpl in Hlast. lia.
Qed.

Lemma Alloc_fresh n s :
  wf s → 0 < plen s → 0 < n ≤ max_bytes →
  free_region s = replicate (Z.to_nat (plen s)) nil_slice →
  let r := Slice (Some (length (mem s))) n n in
  Alloc n s = Ok r (State (<[Z.to_nat (plen s - 1) := r]> (slots s)) (plen s - 1)
                          (mem s ++ [replicate (Z.to_nat n) x00])).
Proof.
  intros Hwf Hpos Hn Hnil r. pose proof (wf_plen _ Hwf) as Hp.
  destruct (Alloc_run n s Hwf Hpos ltac:(left; lia)) as
    [(i & v & w & (u & Hu & Hfit & _) & _)|(_ & _ & i & w & Hll & Hw & Heq)].
  { rewrite Hnil in Hu. apply lookup_replicate in Hu as [-> _]. simpl in Hfit. lia. }
  rewrite Hnil in Hll. apply all_nil_last_largest in Hll.
  assert (i = Z.to_nat (plen s - 1)) as -> by lia.
  rewrite Heq. fold r in Hw |- *.
  rewrite list_lookup_insert_eq in Hw by lia. injection Hw as <-.
  by rewrite !list_insert_insert_eq.
Qed.

Lemma exec_allocs_fresh ns : ∀ held s,
  wf s → (length ns ≤ Z.to_nat (plen s))%nat →
  Forall (λ n, 0 < n ≤ max_bytes) ns →
  free_region s = replicate (Z.to_nat (plen s)) nil_slice →
  ∃ held' s', exec (OpAlloc <$> ns) held s = Ok held' s' ∧
    len <$> held' = reverse ns ++ (len <$> held) ∧
    length (mem s') = (length (mem s) + length ns)%nat ∧
    total_cap (slots s') = total_cap (slots s) + sumZ ns ∧
    plen s' = plen s - Z.of_nat (length ns) ∧
    free_region s' = replicate (Z.to_nat (plen s) - length ns) nil_slice.
Proof.
  induction ns as [|n ns IH]; intros held s Hwf Hlen Hns Hnil; simpl in *.
  - exists held, s. split; [done|]. split; [done|].
    split; [lia|]. split; [lia|]. split; [lia|]. by rewrite Nat.sub_0_r.
  - apply Forall_cons in Hns as [Hn Hns]. pose proof (wf_plen _ Hwf) as Hp.
    pose proof (Alloc_fresh n s Hwf ltac:(lia) Hn Hnil) as Ha. simpl in Ha.
    set (r := Slice (Some (length (mem s))) n n) in *.
    set (s1 := State _ _ _) in Ha.
    assert (slots s !! Z.to_nat (plen s - 1) = Some nil_slice) as Hlast.
    { assert (free_region s !! Z.to_nat (plen s - 1) = Some nil_slice) as H
        by (rewrite Hnil; apply lookup_replicate_2; lia).
      by apply free_region_lookup in H as [? _]. }
    destruct (IH (r :: held) s1) as (held' & s' & Hrun & Hl & Hm & Ht & Hp' & Hf');
      [by eapply Alloc_wf|simpl; lia|done| |].
    { unfold free_region, s1. simpl.
      rewrite take_insert_ge by lia.
      replace (Z.to_nat (plen s - 1)) with (Z.to_nat (plen s) - 1)%nat by lia.
      unfold free_region in Hnil.
      replace (Z.to_nat (plen s) - 1)%nat
        with (min (Z.to_nat (plen s) - 1) (Z.to_nat (plen s))) at 1 by lia.
      rewrite <- take_take, Hnil, take_replicate. f_equal. lia. }
    exists held', s'. rewrite (bind_Ok _ _ _ _ _ Ha). split; [done|].
    simpl in *. split.
    { rewrite Hl, reverse_cons, <- app_assoc. done. }
    split; [rewrite Hm, length_app; simpl; lia|].
    split.
    { rewrite Ht, (total_cap_insert _ _ _ _ Hlast). simpl. lia. }
    split; [lia|]. rewrite Hf'. f_equal. lia.
Qed.

(** X9: [New(c)], for a [c] the runtime grants, allocates no buffer: the
    pool starts with [c] nil slots, an empty heap and total capacity 0.  Each
    of the first [c] requests of a positive size the runtime grants then
    makes exactly one block, of exactly that size, so that after them the
    heap has one block per request, the total capacity is the sum of the
    sizes asked for and the slots not yet used are still nil. *)
Theorem New_allocates_on_demand (c : Z) (ns : list Z) :
  0 ≤ c ≤ max_slots → (length ns ≤ Z.to_nat c)%nat →
  Forall (λ n, 0 < n ≤ max_bytes) ns →
  ∃ held s, (New c;; exec (OpAlloc <$> ns) []) boot = Ok held s ∧
    len <$> held = reverse ns ∧
    length (mem s) = length ns ∧
    total_cap (slots s) = sumZ ns ∧
    free_region s = replicate (Z.to_nat c - length ns) nil_slice.
Proof.
  intros Hc Hlen Hns. pose proof (New_ok c Hc boot) as HN.
  pose proof (New_wf _ _ _ HN) as Hwf.
  destruct (exec_allocs_fresh ns [] _ Hwf) as (held & s & Hrun & Hl & Hm & Ht & _ & Hf);
    [done|done| |].
  { unfold free_region. simpl. by rewrite firstn_all2 by (rewrite length_replicate; lia). }
  exists held, s. rewrite (bind_Ok _ _ _ _ _ HN). split; [done|].
  simpl in *. rewrite app_nil_r in Hl. split; [done|]. split; [done|]. split; [|done].
  rewrite Ht. clear. induction (Z.to_nat c); simpl; lia.
Qed.

(** ** Properly nested calls *)

(** X12: calls that nest like parentheses give the pool back as they found
    it: when such a sequence runs through, the client holds the buffers it
    held before, the boundary is where it was, the slots on loan are
    untouched and the pool is well-formed again with as many free slots as
    before; only the order and the sizes of the free slots may differ. *)
Theorem nested_calls_restore_pool (t : list op) (held held' : list byteslice)
    (s s' : state) :
  wf s → balanced t → exec t held s = Ok held' s' →
  wf s' ∧ held' = held ∧ plen s' = plen s ∧ on_loan s' = on_loan s ∧
  length (slots s') = length (slots s) ∧
  length (free_region s') = length (free_region s).
Proof.
  intros Hwf Hbal Hrun.
  destruct (balanced_frame _ Hbal _ _ _ _ Hwf Hrun) as (Hwf' & Hh & Hp & Hl).
  do 4 (split; [done|]).
  assert (length (free_region s') = length (free_region s)) as Hfree
    by (by rewrite !free_region_length, Hp).
  split; [|done].
  rewrite <- (take_drop (Z.to_nat (plen s)) (slots s)).
  rewrite <- (take_drop (Z.to_nat (plen s')) (slots s')).
  fold (free_region s) (free_region s') (on_loan s) (on_loan s').
  by rewrite !length_app, Hfree, Hl.
Qed.

(** * The clients of the test file *)

Lemma cbind_Done {A B} (m : C A) (k : A → C B) f a f' :
  m f = Done a f' → (m ≫= k) f = k a f'.
Proof. intros H. unfold mbind, C_bind. by rewrite H. Qed.

Lemma lift_Ok {A} (m : M A) f a s :
  m (world f) = Ok a s → lift m f = Done a (Client s (result f)).
Proof. intros H. unfold lift. by rewrite H. Qed.

Lemma deferring_Done {A} (d : C unit) (body : C A) f a f1 f2 :
  body f = Done a f1 → d f1 = Done tt f2 → deferring d body f = Done a f2.
Proof. intros Hb Hd. unfold deferring. by rewrite Hb, Hd. Qed.

Lemma sum_loop_zeros k : sum_loop (replicate k x00) = 0.
Proof.
  unfold sum_loop. induction k as [|k IH]; [done|]. simpl.
  change (wrap (0 + int_of_byte x00)) with 0. exact IH.
Qed.

Lemma append_result_ok b f :
  Z.of_nat (length (result f)) + 1 ≤ max_result →
  append_result b f = Done tt (Client (world f) (result f ++ [b])).
Proof.
  intros Hroom. unfold append_result. by rewrite (proj2 (Z.ltb_ge _ _)) by lia.
Qed.

(** The body shared by the four methods: sum the buffer, append the byte. *)
Lemma range_zeros (buf : byteslice) f :
  block_of (world f) buf = replicate (Z.to_nat (len buf)) x00 →
  lift (range_bytes buf) f = Done (replicate (Z.to_nat (len buf)) x00) f.
Proof.
  intros Hz. destruct f as [s res]. simpl in *. unfold lift, range_bytes. simpl.
  by rewrite Hz, firstn_all2 by (by rewrite length_replicate).
Qed.

Lemma sum_and_append_zeros (buf : byteslice) (k : C unit) f :
  block_of (world f) buf = replicate (Z.to_nat (len buf)) x00 →
  Z.of_nat (length (result f)) + 1 ≤ max_result →
  (vs ← lift (range_bytes buf); append_result (byte_of_int (sum_loop vs));; k) f
  = k (Client (world f) (result f ++ [x00])).
Proof.
  intros Hz Hroom. rewrite (cbind_Done _ _ _ _ _ (range_zeros buf f Hz)).
  rewrite sum_loop_zeros.
  by rewrite (cbind_Done _ _ _ _ _ (append_result_ok _ f Hroom)).
Qed.

Lemma sum_and_append_zeros_end (buf : byteslice) f :
  block_of (world f) buf = replicate (Z.to_nat (len buf)) x00 →
  Z.of_nat (length (result f)) + 1 ≤ max_result →
  (vs ← lift (range_bytes buf); append_result (byte_of_int (sum_loop vs))) f
  = Done tt (Client (world f) (result f ++ [x00])).
Proof.
  intros Hz Hroom. rewrite (cbind_Done _ _ _ _ _ (range_zeros buf f Hz)).
  rewrite sum_loop_zeros. by apply append_result_ok.
Qed.

Lemma Alloc_exact_first n s v :
  wf s → 0 < plen s → slots s !! 0%nat = Some v → cap v = n →
  Alloc n s = take_at 0 s.
Proof.
  intros Hwf Hpos Hv Hcap.
  assert (free_region s !! 0%nat = Some v) as Hv'
    by (apply free_region_lookup; split; [done|lia]).
  assert (fits n (free_region s)) as Hfits.
  { exists 0%nat, v. split; [done|lia]. }
  destruct (Alloc_cases n s Hwf Hpos (or_intror Hfits)) as
    [(_ & i & u & Hbf & _ & _ & Heq & _)|(Hno & _)]; [|done].
  destruct Hbf as (u' & Hu' & Hn & Hmin & Hfirst).
  destruct i as [|i]; [done|].
  specialize (Hmin _ _ Hv'). specialize (Hfirst _ _ Hv'). lia.
Qed.

Section foobufs.
(** The size every call asks for. *)
Variable n : Z.
Hypothesis n_pos : 0 < n.

Lemma steady_wf sl k :
  steady n sl → 0 ≤ k ≤ 2 → wf (State sl k [zeros n; zeros n]).
Proof.
  intros Hsl Hk.
  assert (length (zeros n) = Z.to_nat n) as Hlen by apply length_replicate.
  split; simpl.
  - destruct Hsl as [-> | ->]; simpl; lia.
  - destruct Hsl as [-> | ->]; repeat constructor;
      exists (zeros n); simpl; (split; [done|]); split; lia.
  - intros i j v w Hi Hj (a & Ha & Hb).
    destruct Hsl as [-> | ->];
      destruct i as [|[|i]], j as [|[|j]]; simplify_eq/=; done.
Qed.

Lemma steady_swap P Q : steady n [P; Q] → steady n [Q; P].
Proof. intros [?|?]; simplify_eq; [by right|by left]. Qed.

Lemma steady_block P Q k m :
  steady n [P; Q] →
  block_of (State m k [zeros n; zeros n]) P = replicate (Z.to_nat (len P)) x00 ∧
  block_of (State m k [zeros n; zeros n]) Q = replicate (Z.to_nat (len Q)) x00 ∧
  cap P = n ∧ cap Q = n.
Proof. intros [?|?]; simplify_eq; done. Qed.

Lemma FooBufs_Qux_steady P Q res :
  steady n [P; Q] → Z.of_nat (length res) + 1 ≤ max_result →
  FooBufs_Qux n (Client (State [P; Q] 1 [zeros n; zeros n]) res)
  = Done tt (Client (State [P; Q] 1 [zeros n; zeros n]) (res ++ [x00])).
Proof.
  intros Hst Hroom. destruct (steady_block P Q 0 [P; Q] Hst) as (HP & _ & HcP & _).
  assert (Alloc n (State [P; Q] 1 [zeros n; zeros n])
          = Ok P (State [P; Q] 0 [zeros n; zeros n])) as Ha.
  { rewrite (Alloc_exact_first n _ P); [reflexivity| |simpl; lia|done|done].
    apply steady_wf; [done|lia]. }
  unfold FooBufs_Qux.
  rewrite (cbind_Done _ _ _ _ _
             (lift_Ok _ (Client (State [P; Q] 1 [zeros n; zeros n]) res) _ _ Ha)).
  cbn [result world]. eapply deferring_Done.
  - apply (sum_and_append_zeros_end P
             (Client (State [P; Q] 0 [zeros n; zeros n]) res) HP Hroom).
  - reflexivity.
Qed.

Lemma FooBufs_Bar_steady P Q res :
  steady n [P; Q] → Z.of_nat (length res) + 2 ≤ max_result →
  FooBufs_Bar n (Client (State [P; Q] 2 [zeros n; zeros n]) res)
  = Done tt (Client (State [Q; P] 2 [zeros n; zeros n]) (res ++ [x00; x00])).
Proof.
  intros Hst Hroom. destruct (steady_block P Q 1 [Q; P] Hst) as (HP & _ & HcP & _).
  assert (Alloc n (State [P; Q] 2 [zeros n; zeros n])
          = Ok P (State [Q; P] 1 [zeros n; zeros n])) as Ha.
  { rewrite (Alloc_exact_first n _ P); [reflexivity| |simpl; lia|done|done].
    apply steady_wf; [done|lia]. }
  unfold FooBufs_Bar.
  rewrite (cbind_Done _ _ _ _ _
             (lift_Ok _ (Client (State [P; Q] 2 [zeros n; zeros n]) res) _ _ Ha)).
  cbn [result world]. eapply deferring_Done.
  - rewrite (sum_and_append_zeros P (FooBufs_Qux n)
               (Client (State [Q; P] 1 [zeros n; zeros n]) res) HP)
      by (cbn [result]; lia).
    cbn [result world]. apply FooBufs_Qux_steady; [by apply steady_swap|].
    rewrite length_app. simpl. lia.
  - rewrite <- app_assoc. reflexivity.
Qed.

Lemma FooBufs_rounds_steady k : ∀ sl res,
  steady n sl → Z.of_nat (length res) + 2 * Z.of_nat k ≤ max_result →
  ∃ sl', steady n sl' ∧
    rounds k (FooBufs_Bar n) (Client (State sl 2 [zeros n; zeros n]) res)
    = Done tt (Client (State sl' 2 [zeros n; zeros n]) (res ++ replicate (2 * k) x00)).
Proof.
  induction k as [|k IH]; intros sl res Hst Hroom; simpl.
  - exists sl. split; [done|]. by rewrite app_nil_r.
  - assert (∃ P Q, sl = [P; Q]) as (P & Q & ->) by (destruct Hst; eauto).
    destruct (IH [Q; P] (res ++ [x00; x00]) (steady_swap _ _ Hst)) as (sl' & Hst' & Hrun).
    { rewrite length_app. simpl. lia. }
    exists sl'. split; [done|].
    rewrite (cbind_Done _ _ _ _ _ (FooBufs_Bar_steady P Q res Hst ltac:(lia))), Hrun.
    rewrite <- app_assoc. do 3 f_equal.
    replace (k + S (k + 0))%nat with (S (2 * k)) by lia. done.
Qed.

Lemma FooBufs_first_Bar res :
  n ≤ max_bytes → Z.of_nat (length res) + 2 ≤ max_result →
  FooBufs_Bar n (Client (State [nil_slice; nil_slice] 2 []) res)
  = Done tt (Client (State [buf1 n; buf0 n] 2 [zeros n; zeros n]) (res ++ [x00; x00])).
Proof.
  intros n_max Hroom.
  assert (wf (State [nil_slice; nil_slice] 2 [])) as Hwf0.
  { split; simpl; [lia|by repeat constructor|].
    intros i j v w Hi Hj (a & Ha & _).
    destruct i as [|[|i]]; simplify_eq/=; done. }
  assert (Alloc n (State [nil_slice; nil_slice] 2 [])
          = Ok (buf0 n) (State [nil_slice; buf0 n] 1 [zeros n])) as Ha0.
  { exact (Alloc_fresh n _ Hwf0 ltac:(simpl; lia) (conj n_pos n_max) eq_refl). }
  pose proof (Alloc_wf _ _ _ _ Hwf0 Ha0) as Hwf1.
  assert (Alloc n (State [nil_slice; buf0 n] 1 [zeros n])
          = Ok (buf1 n) (State [buf1 n; buf0 n] 0 [zeros n; zeros n])) as Ha1.
  { exact (Alloc_fresh n _ Hwf1 ltac:(simpl; lia) (conj n_pos n_max) eq_refl). }
  assert (∀ k sl, block_of (State sl k [zeros n]) (buf0 n)
                  = replicate (Z.to_nat (len (buf0 n))) x00) as Hb0 by done.
  assert (∀ k sl, block_of (State sl k [zeros n; zeros n]) (buf1 n)
                  = replicate (Z.to_nat (len (buf1 n))) x00) as Hb1 by done.
  unfold FooBufs_Bar.
  rewrite (cbind_Done _ _ _ _ _
             (lift_Ok _ (Client (State [nil_slice; nil_slice] 2 []) res) _ _ Ha0)).
  cbn [result world].
  eapply deferring_Done.
  - rewrite (sum_and_append_zeros (buf0 n) (FooBufs_Qux n)
               (Client (State [nil_slice; buf0 n] 1 [zeros n]) res) (Hb0 _ _))
      by (cbn [result]; lia).
    cbn [result world]. unfold FooBufs_Qux.
    rewrite (cbind_Done _ _ _ _ _
               (lift_Ok _ (Client (State [nil_slice; buf0 n] 1 [zeros n]) (res ++ [x00]))
                        _ _ Ha1)).
    cbn [result world].
    eapply deferring_Done.
    + apply (sum_and_append_zeros_end (buf1 n)
               (Client (State [buf1 n; buf0 n] 0 [zeros n; zeros n]) (res ++ [x00]))
               (Hb1 _ _)).
      cbn [result]. rewrite length_app. simpl. lia.
    + reflexivity.
  - cbn [result world lift]. rewrite <- app_assoc. reflexivity.
Qed.

End foobufs.

Lemma NewFooBufs_run :
  maxFooDepth ≤ max_slots →
  NewFooBufs (Client boot []) = Done tt (Client (State [nil_slice; nil_slice] 2 []) []).
Proof.
  intros Hd. unfold NewFooBufs.
  assert (New maxFooDepth boot = Ok tt (State [nil_slice; nil_slice] 2 [])) as HN.
  { apply (New_ok maxFooDepth). unfold maxFooDepth in *. lia. }
  by rewrite (cbind_Done _ _ _ _ _ (lift_Ok _ (Client boot []) _ _ HN)).
Qed.

Lemma FooBufs_rounds (k : nat) (n : Z) :
  0 < n ≤ max_bytes → maxFooDepth ≤ max_slots →
  2 * Z.of_nat (S k) ≤ max_result →
  ∃ sl, steady n sl ∧
    (NewFooBufs;; rounds (S k) (FooBufs_Bar n)) (Client boot [])
    = Done tt (Client (State sl 2 [zeros n; zeros n]) (replicate (2 * S k) x00)).
Proof.
  intros [Hn Hmax] Hd Hroom.
  destruct (FooBufs_rounds_steady n Hn k [buf1 n; buf0 n] [x00; x00]) as (sl & Hst & Hrun);
    [by right|simpl; lia|].
  exists sl. split; [done|].
  rewrite (cbind_Done _ _ _ _ _ (NewFooBufs_run Hd)). simpl rounds.
  rewrite (cbind_Done _ _ _ _ _ (FooBufs_first_Bar n Hn [] Hmax ltac:(simpl; lia))).
  simpl app. rewrite Hrun. do 2 f_equal.
  replace (2 * S k)%nat with (S (S (2 * k))) by lia. done.
Qed.

Lemma Foo_Bar_run (n : Z) f :
  0 ≤ n ≤ max_bytes → Z.of_nat (length (result f)) + 2 ≤ max_result →
  Foo_Bar n f
  = Done tt (Client (State (slots (world f)) (plen (world f))
                           (mem (world f) ++ [zeros n; zeros n]))
                    (result f ++ [x00; x00])).
Proof.
  intros Hn Hroom. destruct f as [[sl k m] res]. cbn [result] in Hroom.
  assert (∀ m' res',
    lift (make n) (Client (State sl k m') res')
    = Done (Slice (Some (length m')) n n) (Client (State sl k (m' ++ [zeros n])) res'))
    as Hmk.
  { intros m' res'. unfold lift, make. simpl.
    by rewrite (proj2 (Z.ltb_ge n 0)), (proj2 (Z.ltb_ge max_bytes n)) by lia. }
  assert (∀ m',
    block_of (State sl k (m' ++ [zeros n])) (Slice (Some (length m')) n n)
    = replicate (Z.to_nat (len (Slice (Some (length m')) n n))) x00) as Hblk.
  { intros m'. unfold block_of. simpl.
    by rewrite lookup_app_r, Nat.sub_diag by lia. }
  unfold Foo_Bar. rewrite (cbind_Done _ _ _ _ _ (Hmk m res)).
  rewrite (sum_and_append_zeros _ (Foo_Qux n)
             (Client (State sl k (m ++ [zeros n])) res) (Hblk m))
    by (cbn [result]; lia).
  cbn [result world]. unfold Foo_Qux.
  rewrite (cbind_Done _ _ _ _ _ (Hmk (m ++ [zeros n]) (res ++ [x00]))).
  rewrite (sum_and_append_zeros_end _
             (Client (State sl k ((m ++ [zeros n]) ++ [zeros n])) (res ++ [x00]))
             (Hblk (m ++ [zeros n])))
    by (cbn [result]; rewrite length_app; simpl; lia).
  cbn [result world slots plen mem]. by rewrite <- !app_assoc.
Qed.

Lemma Foo_rounds (n : Z) (k : nat) : ∀ f,
  0 ≤ n ≤ max_bytes → Z.of_nat (length (result f)) + 2 * Z.of_nat k ≤ max_result →
  rounds k (Foo_Bar n) f
  = Done tt (Client (State (slots (world f)) (plen (world f))
                           (mem (world f) ++ replicate (2 * k) (zeros n)))
                    (result f ++ replicate (2 * k) x00)).
Proof.
  induction k as [|k IH]; intros f Hn Hroom.
  - simpl. rewrite !app_nil_r. by destruct f as [[] ?].
  - simpl rounds.
    rewrite (cbind_Done _ _ _ _ _ (Foo_Bar_run n f Hn ltac:(lia))), IH;
      [|done|cbn [result]; rewrite length_app; simpl; lia].
    cbn [result world slots plen mem]. rewrite <- !app_assoc.
    replace (2 * S k)%nat with (S (S (2 * k))) by lia. done.
Qed.

(** X10: where the runtime grants [n] bytes, two slots and a [result] of two
    bytes per round, a [FooBufs] made by [NewFooBufs] runs any number of
    rounds of [Bar(n)], [n > 0], without a panic; after one round or a
    hundred thousand the heap holds exactly two buffers of [n] bytes, both
    back in the free region of the pool, the total capacity [Stats] reports
    is [2 * n], and [result] has two zero bytes per round. *)
Theorem FooBufs_uses_two_buffers (k : nat) (n : Z) :
  0 < n ≤ max_bytes → maxFooDepth ≤ max_slots →
  2 * Z.of_nat (S k) ≤ max_result →
  ∃ sl, steady n sl ∧ total_cap sl = 2 * n ∧
    (NewFooBufs;; rounds (S k) (FooBufs_Bar n)) (Client boot [])
    = Done tt (Client (State sl 2 [zeros n; zeros n]) (replicate (2 * S k) x00)).
Proof.
  intros Hn Hd Hroom. destruct (FooBufs_rounds k n Hn Hd Hroom) as (sl & Hst & Hrun).
  exists sl. split; [done|]. split; [|done].
  destruct Hst as [-> | ->]; simpl; lia.
Qed.

(** X11: [Foo] and [FooBufs] do the same work: where the runtime grants [n]
    bytes, two slots and a [result] of two bytes per round, both run the same
    number of rounds of [Bar(n)], [n > 0], without a panic and end with the
    same [result]; [Foo] has made two buffers per round, [FooBufs] at most
    two in all. *)
Theorem Foo_and_FooBufs_agree (k : nat) (n : Z) :
  0 < n ≤ max_bytes → maxFooDepth ≤ max_slots →
  2 * Z.of_nat k ≤ max_result →
  ∃ f g, (NewFoo;; rounds k (Foo_Bar n)) (Client boot []) = Done tt f ∧
         (NewFooBufs;; rounds k (FooBufs_Bar n)) (Client boot []) = Done tt g ∧
         result f = result g ∧
         length (mem (world f)) = (2 * k)%nat ∧
         (length (mem (world g)) ≤ 2)%nat.
Proof.
  intros Hn Hd Hroom.
  assert ((NewFoo;; rounds k (Foo_Bar n)) (Client boot [])
          = Done tt (Client (State [] 0 (replicate (2 * k) (zeros n)))
                            (replicate (2 * k) x00))) as HF.
  { assert (NewFoo (Client boot []) = Done tt (Client boot [])) as H0 by done.
    rewrite (cbind_Done _ _ _ _ _ H0).
    rewrite Foo_rounds; [done|lia|simpl; lia]. }
  exists (Client (State [] 0 (replicate (2 * k) (zeros n))) (replicate (2 * k) x00)).
  destruct k as [|k].
  - exists (Client (State [nil_slice; nil_slice] 2 []) []).
    split; [exact HF|]. split.
    { rewrite (cbind_Done _ _ _ _ _ (NewFooBufs_run Hd)). done. }
    simpl. split; [done|]. split; [done|lia].
  - destruct (FooBufs_rounds k n Hn Hd Hroom) as (sl & _ & HG).
    exists (Client (State sl 2 [zeros n; zeros n]) (replicate (2 * S k) x00)).
    split; [exact HF|]. split; [exact HG|].
    cbn [result world mem]. split; [done|]. rewrite length_replicate. simpl. lia.
Qed.


End general.

(** * Instances

    The properties above at sample states and calls, under the limits of
    linux/amd64. *)

#[export] Existing Instance linux_amd64.

Lemma Alloc_panic_keeps_state_witness :
  plen two_on_loan = 0 ∧
  Alloc 3 two_on_loan = Panic (ErrorsNew out_of_buffers) two_on_loan ∧
  recover (Alloc 3) two_on_loan = Ok (Some (ErrorsNew out_of_buffers)) two_on_loan ∧
  ∀ (B : Type) (k : M B), (recover (Alloc 3);; k) two_on_loan = k two_on_loan.
Proof. split; [reflexivity | apply Alloc_panic_keeps_state; reflexivity]. Defined.

Lemma capacity_is_hard_limit_witness :
  0 ≤ 2 ≤ max_slots ∧
  (∀ ns : list Z, length ns = Z.to_nat 2 → Forall (λ n, n ≤ max_bytes) ns →
     ∃ held s, (New 2;; exec (OpAlloc <$> ns) []) boot = Ok held s ∧
               length held = length ns ∧
               ∀ n, Alloc n s = Panic (ErrorsNew out_of_buffers) s) ∧
  (∀ held s, reachable 2 held s →
     Z.of_nat (length held) = 2 - plen s ∧
     (held ≠ [] → ∃ s', Free s = Ok tt s' ∧ reachable 2 (tail held) s') ∧
     (held = [] → ∃ e, Free s = Panic e s)).
Proof.
  assert (0 ≤ 2 ≤ max_slots) as H by (by vm_compute).
  split; [exact H | exact (capacity_is_hard_limit 2 H)].
Defined.

Lemma Free_returns_latest_borrow_witness :
  wf lifo_start ∧ Alloc 3 lifo_start = Ok lifo_buf lifo_borrowed ∧
  balanced lifo_calls ∧
  exec lifo_calls [lifo_buf] lifo_borrowed = Ok [lifo_buf] lifo_after ∧
  slots lifo_borrowed !! Z.to_nat (plen lifo_borrowed) = Some lifo_buf ∧
  ∃ s3, Free lifo_after = Ok tt s3 ∧
        plen s3 = plen lifo_after + 1 ∧ plen s3 = plen lifo_start ∧
        slots s3 = slots lifo_after ∧
        free_region s3 = free_region lifo_after ++ [lifo_buf] ∧
        on_loan lifo_after = lifo_buf :: on_loan s3 ∧
        on_loan s3 = on_loan lifo_start.
Proof.
  assert (wf lifo_start) as Hwf by (eapply (New_wf 2 boot); reflexivity).
  assert (balanced lifo_calls) as Hbal.
  { apply (balanced_alloc 0 [OpPoke 1 2 x07] []); repeat constructor. }
  assert (Alloc 3 lifo_start = Ok lifo_buf lifo_borrowed) as Ha
    by (vm_compute; reflexivity).
  assert (exec lifo_calls [lifo_buf] lifo_borrowed = Ok [lifo_buf] lifo_after) as He
    by (vm_compute; reflexivity).
  split; [exact Hwf|]. split; [exact Ha|]. split; [exact Hbal|].
  split; [exact He|].
  exact (Free_returns_latest_borrow 3 lifo_start lifo_borrowed lifo_after lifo_buf
           lifo_calls [lifo_buf] [lifo_buf] Hwf Ha Hbal He).
Defined.

Lemma sample_pools_reachable :
  reachable 4 [Slice (Some 0%nat) 10 10] test4_pool ∧
  reachable 2 [] tie_pool ∧
  reachable 2 [Slice (Some 1%nat) 5 5; Slice (Some 0%nat) 3 3] two_on_loan.
Proof.
  split; [|split].
  - exists test4_calls. vm_compute. reflexivity.
  - exists [OpAlloc 10; OpAlloc 10; OpFree; OpFree]. vm_compute. reflexivity.
  - exists [OpAlloc 3; OpAlloc 5]. vm_compute. reflexivity.
Qed.

Lemma tie_pool_no_fit : ¬ fits 20 (free_region tie_pool).
Proof.
  intros (j & w & Hj & Hw).
  destruct j as [|[|j]]; vm_compute in Hj; simplify_eq; vm_compute in Hw; by apply Hw.
Qed.

Lemma Alloc_best_fit_witness :
  wf test4_pool ∧ fits 10 (free_region test4_pool) ∧
  ∃ i v s', best_fit 10 (free_region test4_pool) i ∧
            slots test4_pool !! i = Some v ∧
            Alloc 10 test4_pool = Ok v s' ∧
            Alloc 10 test4_pool = take_at i test4_pool ∧
            mem s' = mem test4_pool ∧
            Forall (λ u, u ∈ slots test4_pool) (slots s').
Proof.
  assert (wf test4_pool) as Hwf.
  { apply (reachable_inv 4 [Slice (Some 0%nat) 10 10]), sample_pools_reachable. }
  assert (fits 10 (free_region test4_pool)) as Hfit.
  { exists 0%nat, (Slice (Some 3%nat) 40 40). split; [reflexivity|]. simpl. lia. }
  split; [exact Hwf|]. split; [exact Hfit|].
  exact (Alloc_best_fit 10 test4_pool Hwf Hfit).
Defined.

Lemma Alloc_grows_last_largest_witness :
  wf tie_pool ∧ 0 < plen tie_pool ∧ ¬ fits 20 (free_region tie_pool) ∧
  20 ≤ max_bytes ∧
  ∃ i r s', last_largest (free_region tie_pool) i ∧
            Alloc 20 tie_pool = grow_at 20 i tie_pool ∧
            Alloc 20 tie_pool = Ok r s' ∧
            len r = 20 ∧ cap r = 20 ∧
            block_of s' r = replicate (Z.to_nat 20) x00 ∧
            (∀ u, u ∈ slots tie_pool → ¬ alias u r) ∧
            plen s' = plen tie_pool - 1 ∧
            on_loan s' = r :: on_loan tie_pool.
Proof.
  assert (wf tie_pool) as Hwf.
  { apply (reachable_inv 2 []), sample_pools_reachable. }
  assert (0 < plen tie_pool) as Hpos by reflexivity.
  assert (20 ≤ max_bytes) as Hle by (by vm_compute).
  split; [exact Hwf|]. split; [exact Hpos|]. split; [exact tie_pool_no_fit|].
  split; [exact Hle|].
  exact (Alloc_grows_last_largest 20 tie_pool Hwf Hpos tie_pool_no_fit Hle).
Defined.

(** C3, as the specification words it, fails: with two free slots of
    capacity 10 and a request for 20 bytes the first largest slot is slot 0,
    but the code replaces slot 1. *)
Lemma Alloc_tie_picks_last :
  (New 2;; Alloc 10;; Alloc 10;; Free;; Free) boot = Ok tt tie_pool ∧
  0 < plen tie_pool ∧
  ¬ fits 20 (free_region tie_pool) ∧
  first_largest (free_region tie_pool) 0 ∧
  Alloc 20 tie_pool ≠ grow_at 20 0 tie_pool ∧
  Alloc 20 tie_pool = grow_at 20 1 tie_pool.
Proof.
  split; [reflexivity|]. split; [reflexivity|]. split; [|split; [|split]].
  - exact tie_pool_no_fit.
  - exists (Slice (Some 1%nat) 10 10). split; [reflexivity|].
    split; intros j w Hj; [|lia].
    destruct j as [|[|j]]; vm_compute in Hj; by simplify_eq.
  - vm_compute. discriminate.
  - reflexivity.
Qed.

Lemma borrows_never_alias_witness :
  reachable 2 [Slice (Some 1%nat) 5 5; Slice (Some 0%nat) 3 3] two_on_loan ∧
  [Slice (Some 1%nat) 5 5; Slice (Some 0%nat) 3 3] = on_loan two_on_loan ∧
  distinct [Slice (Some 1%nat) 5 5; Slice (Some 0%nat) 3 3] ∧
  (∀ n r s', Alloc n two_on_loan = Ok r s' →
     (∀ r0, r0 ∈ [Slice (Some 1%nat) 5 5; Slice (Some 0%nat) 3 3] → ¬ alias r r0) ∧
     ∃ i, Z.of_nat i < plen two_on_loan ∧
          (Alloc n two_on_loan = take_at i two_on_loan ∨
           Alloc n two_on_loan = grow_at n i two_on_loan)) ∧
  (∀ n r s', Calloc n two_on_loan = Ok r s' →
     ∀ r0, r0 ∈ [Slice (Some 1%nat) 5 5; Slice (Some 0%nat) 3 3] → ¬ alias r r0).
Proof.
  split; [apply sample_pools_reachable|].
  apply (borrows_never_alias 2), sample_pools_reachable.
Defined.

Lemma Stats_sums_all_slots_witness :
  reachable 2 [Slice (Some 1%nat) 5 5; Slice (Some 0%nat) 3 3] two_on_loan ∧
  total_cap (slots two_on_loan) < 2 ^ 63 ∧
  Stats two_on_loan
  = Ok (total_cap (free_region two_on_loan) + total_cap (on_loan two_on_loan))
       two_on_loan ∧
  total_cap (free_region two_on_loan) + total_cap (on_loan two_on_loan)
  = total_cap (slots two_on_loan).
Proof.
  split; [apply sample_pools_reachable|]. split; [reflexivity|].
  apply (Stats_sums_all_slots 2 [Slice (Some 1%nat) 5 5; Slice (Some 0%nat) 3 3]);
    [apply sample_pools_reachable | reflexivity].
Defined.

(** C5, as the specification words it, fails for [Free]: the panic of an
    unmatched [Free] is the runtime's slice-bounds check, not an error of the
    package. *)
Lemma Free_panic_is_runtime_check :
  ∃ e s', (New 1;; Alloc 1;; Free;; Free) boot = Panic e s' ∧
          plen s' = Z.of_nat (length (slots s')) ∧
          e = RuntimeError (SliceBoundsOutOfRange 2 1) ∧ generic_crash e.
Proof.
  exists (RuntimeError (SliceBoundsOutOfRange 2 1)). eexists.
  split; [vm_compute; reflexivity|]. split; [reflexivity|].
  split; [done|]. by eexists.
Qed.

Lemma fatal_conditions_witness :
  plen two_on_loan = 0 ∧ plen tie_pool = Z.of_nat (length (slots tie_pool)) ∧
  let e_alloc := ErrorsNew out_of_buffers in
  let e_free := RuntimeError
                  (SliceBoundsOutOfRange (plen tie_pool + 1)
                                         (Z.of_nat (length (slots tie_pool)))) in
  Alloc 1 two_on_loan = Panic e_alloc two_on_loan ∧
  Free tie_pool = Panic e_free tie_pool ∧
  recover (Alloc 1) two_on_loan = Ok (Some e_alloc) two_on_loan ∧
  recover Free tie_pool = Ok (Some e_free) tie_pool ∧
  ¬ generic_crash e_alloc ∧ generic_crash e_free ∧ e_alloc ≠ e_free.
Proof.
  split; [reflexivity|]. split; [reflexivity|].
  apply (fatal_conditions 1 two_on_loan tie_pool); reflexivity.
Defined.

(** C1 fails on the code at the calls of [Test4]: after them the free slots
    have capacities 40, 20 and 30, and [Alloc(10)] returns the slot of
    capacity 20 with length 20, not 10. *)
Theorem Alloc_returns_slot_untruncated :
  (New 4;; exec test4_calls []) boot = Ok [Slice (Some 0%nat) 10 10] test4_pool ∧
  cap <$> free_region test4_pool = [40; 20; 30] ∧
  ∃ r s', Alloc 10 test4_pool = Ok r s' ∧ len r = 20 ∧ cap r = 20.
Proof.
  split; [vm_compute; reflexivity|]. split; [vm_compute; reflexivity|].
  exists (Slice (Some 1%nat) 20 20). eexists.
  split; [vm_compute; reflexivity|]. by split.
Qed.

(** C7 fails on the code: a client fills a buffer of 4 bytes and frees it;
    [Calloc(2)] then returns that buffer with length 4 and has set all 4
    bytes to zero, where [Alloc(2)] leaves them as they were. *)
Theorem Calloc_zeroes_whole_slot :
  (New 1;; exec dirty_calls []) boot = Ok [] dirty_pool ∧
  (∃ r s', Alloc 2 dirty_pool = Ok r s' ∧ len r = 4 ∧
           block_of s' r = [x05; x06; x00; x07]) ∧
  (∃ r s', Calloc 2 dirty_pool = Ok r s' ∧ len r = 4 ∧
           block_of s' r = [x00; x00; x00; x00]).
Proof.
  split; [vm_compute; reflexivity|].
  split; exists (Slice (Some 0%nat) 4 4); eexists;
    (split; [vm_compute; reflexivity|]); split; reflexivity.
Qed.

Lemma Alloc_panics_only_for_depth_or_size_witness :
  wf tie_pool ∧
  (0 < plen tie_pool → -1 ≤ max_bytes ∨ fits (-1) (free_region tie_pool) →
     ∃ r s', Alloc (-1) tie_pool = Ok r s' ∧ wf s') ∧
  (∀ e s', Alloc (-1) tie_pool = Panic e s' →
     s' = tie_pool ∧
     (plen tie_pool = 0 ∧ e = ErrorsNew out_of_buffers
      ∨ 0 < plen tie_pool ∧ ¬ fits (-1) (free_region tie_pool) ∧ max_bytes < -1 ∧
        e = RuntimeError MakeLenOutOfRange)).
Proof.
  assert (wf tie_pool) as Hwf.
  { apply (reachable_inv 2 []), sample_pools_reachable. }
  split; [exact Hwf | exact (Alloc_panics_only_for_depth_or_size (-1) tie_pool Hwf)].
Defined.

Lemma Alloc_result_shape_witness :
  wf test4_pool ∧
  Alloc 10 test4_pool = Ok (Slice (Some 1%nat) 20 20) test4_taken ∧
  10 ≤ len (Slice (Some 1%nat) 20 20) ∧
  cap (Slice (Some 1%nat) 20 20) = len (Slice (Some 1%nat) 20 20) ∧
  (¬ fits 10 (free_region test4_pool) → len (Slice (Some 1%nat) 20 20) = 10) ∧
  (∀ u, u ∈ free_region test4_pool → 10 ≤ cap u →
        len (Slice (Some 1%nat) 20 20) ≤ cap u).
Proof.
  assert (wf test4_pool) as Hwf.
  { apply (reachable_inv 4 [Slice (Some 0%nat) 10 10]), sample_pools_reachable. }
  assert (Alloc 10 test4_pool = Ok (Slice (Some 1%nat) 20 20) test4_taken) as Ha
    by (vm_compute; reflexivity).
  split; [exact Hwf|]. split; [exact Ha|].
  exact (Alloc_result_shape 10 test4_pool test4_taken _ Hwf Ha).
Defined.

Lemma Calloc_is_Alloc_then_zero_witness :
  wf dirty_pool ∧
  (∀ e s', Alloc 2 dirty_pool = Panic e s' → Calloc 2 dirty_pool = Panic e s') ∧
  (∀ r s1, Alloc 2 dirty_pool = Ok r s1 →
     ∃ s', Calloc 2 dirty_pool = Ok r s' ∧
           slots s' = slots s1 ∧ plen s' = plen s1 ∧
           block_of s' r = replicate (Z.to_nat (len r)) x00 ∧
           length (mem s') = length (mem s1) ∧
           ∀ b, data r ≠ Some b → mem s' !! b = mem s1 !! b).
Proof.
  assert (wf dirty_pool) as Hwf.
  { apply (reachable_inv 1 []). exists dirty_calls. vm_compute. reflexivity. }
  split; [exact Hwf | exact (Calloc_is_Alloc_then_zero 2 dirty_pool Hwf)].
Defined.

Lemma Alloc_reorders_or_replaces_one_witness :
  wf test4_pool ∧
  Alloc 10 test4_pool = Ok (Slice (Some 1%nat) 20 20) test4_taken ∧
  (fits 10 (free_region test4_pool) →
     slots test4_taken ≡ₚ slots test4_pool ∧ mem test4_taken = mem test4_pool ∧
     total_cap (slots test4_taken) = total_cap (slots test4_pool)) ∧
  (¬ fits 10 (free_region test4_pool) →
     ∃ i v, free_region test4_pool !! i = Some v ∧ cap v < 10 ∧
            slots test4_taken ≡ₚ <[i := Slice (Some 1%nat) 20 20]> (slots test4_pool) ∧
            length (mem test4_taken) = S (length (mem test4_pool)) ∧
            total_cap (slots test4_taken) = total_cap (slots test4_pool) + (10 - cap v)).
Proof.
  assert (wf test4_pool) as Hwf.
  { apply (reachable_inv 4 [Slice (Some 0%nat) 10 10]), sample_pools_reachable. }
  assert (Alloc 10 test4_pool = Ok (Slice (Some 1%nat) 20 20) test4_taken) as Ha
    by (vm_compute; reflexivity).
  split; [exact Hwf|]. split; [exact Ha|].
  exact (Alloc_reorders_or_replaces_one 10 test4_pool test4_taken _ Hwf Ha).
Defined.

Lemma Alloc_keeps_bytes_witness :
  wf dirty_pool ∧
  Alloc 2 dirty_pool
  = Ok (Slice (Some 0%nat) 4 4) (State [Slice (Some 0%nat) 4 4] 0 (mem dirty_pool)) ∧
  (∀ a blk, mem dirty_pool !! a = Some blk →
            mem (State [Slice (Some 0%nat) 4 4] 0 (mem dirty_pool)) !! a = Some blk) ∧
  (fits 2 (free_region dirty_pool) →
     block_of (State [Slice (Some 0%nat) 4 4] 0 (mem dirty_pool)) (Slice (Some 0%nat) 4 4)
     = block_of dirty_pool (Slice (Some 0%nat) 4 4)) ∧
  (¬ fits 2 (free_region dirty_pool) →
     block_of (State [Slice (Some 0%nat) 4 4] 0 (mem dirty_pool)) (Slice (Some 0%nat) 4 4)
     = replicate (Z.to_nat 2) x00).
Proof.
  assert (wf dirty_pool) as Hwf.
  { apply (reachable_inv 1 []). exists dirty_calls. vm_compute. reflexivity. }
  assert (Alloc 2 dirty_pool
          = Ok (Slice (Some 0%nat) 4 4)
               (State [Slice (Some 0%nat) 4 4] 0 (mem dirty_pool))) as Ha
    by (vm_compute; reflexivity).
  split; [exact Hwf|]. split; [exact Ha|].
  exact (Alloc_keeps_bytes 2 dirty_pool _ _ Hwf Ha).
Defined.

Lemma capacity_never_shrinks_witness :
  wf lifo_borrowed ∧
  exec lifo_calls [lifo_buf] lifo_borrowed = Ok [lifo_buf] lifo_after ∧
  total_cap (slots lifo_borrowed) ≤ total_cap (slots lifo_after) ∧
  (length (mem lifo_borrowed) ≤ length (mem lifo_after))%nat.
Proof.
  assert (wf lifo_borrowed) as Hwf.
  { apply (reachable_inv 2 [lifo_buf]). exists [OpAlloc 3]. vm_compute. reflexivity. }
  assert (exec lifo_calls [lifo_buf] lifo_borrowed = Ok [lifo_buf] lifo_after) as He
    by (vm_compute; reflexivity).
  split; [exact Hwf|]. split; [exact He|].
  exact (capacity_never_shrinks lifo_calls _ _ _ _ Hwf He).
Defined.

Lemma freed_buffer_serves_smaller_requests_witness :
  wf lifo_start ∧ Alloc 3 lifo_start = Ok lifo_buf lifo_borrowed ∧
  balanced lifo_calls ∧
  exec lifo_calls [lifo_buf] lifo_borrowed = Ok [lifo_buf] lifo_after ∧
  Free lifo_after = Ok tt (State (slots lifo_after) 2 (mem lifo_after)) ∧
  2 ≤ 3 ∧
  ∃ r' s4, Alloc 2 (State (slots lifo_after) 2 (mem lifo_after)) = Ok r' s4 ∧
           mem s4 = mem (State (slots lifo_after) 2 (mem lifo_after)) ∧
           2 ≤ cap r' ∧ cap r' ≤ cap lifo_buf.
Proof.
  assert (wf lifo_start) as Hwf by (eapply (New_wf 2 boot); reflexivity).
  assert (balanced lifo_calls) as Hbal.
  { apply (balanced_alloc 0 [OpPoke 1 2 x07] []); repeat constructor. }
  assert (Alloc 3 lifo_start = Ok lifo_buf lifo_borrowed) as Ha
    by (vm_compute; reflexivity).
  assert (exec lifo_calls [lifo_buf] lifo_borrowed = Ok [lifo_buf] lifo_after) as He
    by (vm_compute; reflexivity).
  assert (Free lifo_after = Ok tt (State (slots lifo_after) 2 (mem lifo_after))) as Hf
    by (vm_compute; reflexivity).
  assert (2 ≤ 3) as Hm by lia.
  split; [exact Hwf|]. split; [exact Ha|]. split; [exact Hbal|].
  split; [exact He|]. split; [exact Hf|]. split; [exact Hm|].
  exact (freed_buffer_serves_smaller_requests 3 2 lifo_start lifo_borrowed lifo_after
           _ lifo_buf lifo_calls [lifo_buf] [lifo_buf] Hwf Ha Hbal He Hf Hm).
Defined.

Lemma calls_run_iff_depth_ok_witness :
  wf lifo_start ∧
  Forall (λ o, is_call o = true) [OpAlloc 3; OpCalloc 4; OpFree; OpFree; OpFree] ∧
  Forall (asks_at_most max_bytes) [OpAlloc 3; OpCalloc 4; OpFree; OpFree; OpFree] ∧
  ((∃ held' s', exec [OpAlloc 3; OpCalloc 4; OpFree; OpFree; OpFree] [] lifo_start
                = Ok held' s') ↔
   depth_ok [OpAlloc 3; OpCalloc 4; OpFree; OpFree; OpFree]
            (Z.to_nat (plen lifo_start))
            (length (slots lifo_start) - Z.to_nat (plen lifo_start)) = true).
Proof.
  assert (wf lifo_start) as Hwf by (eapply (New_wf 2 boot); reflexivity).
  assert (Forall (λ o, is_call o = true)
            [OpAlloc 3; OpCalloc 4; OpFree; OpFree; OpFree]) as Hc
    by (by repeat constructor).
  assert (Forall (asks_at_most max_bytes)
            [OpAlloc 3; OpCalloc 4; OpFree; OpFree; OpFree]) as Hs
    by (repeat constructor; by vm_compute).
  split; [exact Hwf|]. split; [exact Hc|]. split; [exact Hs|].
  exact (calls_run_iff_depth_ok _ [] lifo_start Hwf Hc Hs).
Defined.

Lemma New_allocates_on_demand_witness :
  0 ≤ 3 ≤ max_slots ∧ (length [5; 7] ≤ Z.to_nat 3)%nat ∧
  Forall (λ n, 0 < n ≤ max_bytes) [5; 7] ∧
  ∃ held s, (New 3;; exec (OpAlloc <$> [5; 7]) []) boot = Ok held s ∧
    len <$> held = reverse [5; 7] ∧
    length (mem s) = length [5; 7] ∧
    total_cap (slots s) = sumZ [5; 7] ∧
    free_region s = replicate (Z.to_nat 3 - length [5; 7]) nil_slice.
Proof.
  assert (0 ≤ 3 ≤ max_slots) as Hc by (by vm_compute).
  assert (length [5; 7] ≤ Z.to_nat 3)%nat as Hl by (simpl; lia).
  assert (Forall (λ n, 0 < n ≤ max_bytes) [5; 7]) as H
    by (repeat constructor; by vm_compute).
  split; [exact Hc|]. split; [exact Hl|]. split; [exact H|].
  exact (New_allocates_on_demand 3 [5; 7] Hc Hl H).
Defined.

Lemma nested_calls_restore_pool_witness :
  wf lifo_borrowed ∧ balanced lifo_calls ∧
  exec lifo_calls [lifo_buf] lifo_borrowed = Ok [lifo_buf] lifo_after ∧
  wf lifo_after ∧ [lifo_buf] = [lifo_buf] ∧ plen lifo_after = plen lifo_borrowed ∧
  on_loan lifo_after = on_loan lifo_borrowed ∧
  length (slots lifo_after) = length (slots lifo_borrowed) ∧
  length (free_region lifo_after) = length (free_region lifo_borrowed).
Proof.
  assert (wf lifo_borrowed) as Hwf.
  { apply (reachable_inv 2 [lifo_buf]). exists [OpAlloc 3]. vm_compute. reflexivity. }
  assert (balanced lifo_calls) as Hbal.
  { apply (balanced_alloc 0 [OpPoke 1 2 x07] []); repeat constructor. }
  assert (exec lifo_calls [lifo_buf] lifo_borrowed = Ok [lifo_buf] lifo_after) as He
    by (vm_compute; reflexivity).
  split; [exact Hwf|]. split; [exact Hbal|]. split; [exact He|].
  exact (nested_calls_restore_pool lifo_calls _ _ _ _ Hwf Hbal He).
Defined.

Lemma FooBufs_uses_two_buffers_witness :
  0 < 3 ≤ max_bytes ∧ maxFooDepth ≤ max_slots ∧ 2 * Z.of_nat (S 4) ≤ max_result ∧
  ∃ sl, steady 3 sl ∧ total_cap sl = 2 * 3 ∧
    (NewFooBufs;; rounds (S 4) (FooBufs_Bar 3)) (Client boot [])
    = Done tt (Client (State sl 2 [zeros 3; zeros 3]) (replicate (2 * S 4) x00)).
Proof.
  assert (0 < 3 ≤ max_bytes) as Hn by (by vm_compute).
  assert (maxFooDepth ≤ max_slots) as Hd by (by vm_compute).
  assert (2 * Z.of_nat (S 4) ≤ max_result) as Hr by (by vm_compute).
  split; [exact Hn|]. split; [exact Hd|]. split; [exact Hr|].
  exact (FooBufs_uses_two_buffers 4 3 Hn Hd Hr).
Defined.

Lemma Foo_and_FooBufs_agree_witness :
  0 < 3 ≤ max_bytes ∧ maxFooDepth ≤ max_slots ∧ 2 * Z.of_nat 5 ≤ max_result ∧
  ∃ f g, (NewFoo;; rounds 5 (Foo_Bar 3)) (Client boot []) = Done tt f ∧
         (NewFooBufs;; rounds 5 (FooBufs_Bar 3)) (Client boot []) = Done tt g ∧
         result f = result g ∧
         length (mem (world f)) = (2 * 5)%nat ∧
         (length (mem (world g)) ≤ 2)%nat.
Proof.
  assert (0 < 3 ≤ max_bytes) as Hn by (by vm_compute).
  assert (maxFooDepth ≤ max_slots) as Hd by (by vm_compute).
  assert (2 * Z.of_nat 5 ≤ max_result) as Hr by (by vm_compute).
  split; [exact Hn|]. split; [exact Hd|]. split; [exact Hr|].
  exact (Foo_and_FooBufs_agree 5 3 Hn Hd Hr).
Defined.

(** [New(1 << 62)], and [Alloc(1 << 62)] on a pool of one slot: [make]
    refuses the length, and the pool is as it was before the call. *)
Lemma New_refuses_huge_pool :
  New (2 ^ 62) boot = Panic (RuntimeError MakeLenOutOfRange) boot.
Proof. apply New_over_limit. right. by vm_compute. Qed.

Lemma Alloc_refuses_huge_buffer :
  (New 1;; Alloc (2 ^ 62)) boot
  = Panic (RuntimeError MakeLenOutOfRange) (State [nil_slice] 1 []).
Proof. vm_compute. reflexivity. Qed.
